(** * Generated Relay query bindings and the container build of Phoenix

    The repository excerpt holds two artifacts emitted by the Relay compiler
    ([SessionDetailsQuery] and [ViewerContextRefetchQuery]) and the two-stage
    [backend.dockerfile].  The artifacts are data: a [ConcreteRequest] object
    built inside a function scope whose local variables [v0], [v1], ... hold
    the parts that are used more than once, next to the exported TypeScript
    types of the variables and of the response.

    The development embeds that data as it is written (the local variables
    stay variables: a use [(v3/*: any*/)] is a reference into the scope, not
    a copy), gives the selection trees, the exported types and the query text
    their meaning, and states the properties of the bindings over them. *)

From Stdlib Require Import Ascii Decimal DecimalString.
From stdpp Require Import base option list strings gmap.

#[local] Set Warnings "-register-all".
#[local] Open Scope string_scope.

(** ** JSON values

    Literal argument values, metadata and responses are JSON.  A number is
    kept as the decimal numeral of the JSON grammar; an object is a finite
    map from keys to values. *)

Inductive json :=
| JNull
| JBool (b : bool)
| JNum (d : decimal)
| JStr (s : string)
| JArr (items : list json)
| JObj (fields : gmap string json).

Abbreviation record := (gmap string json).

(** Property access [j.k]; absent on anything that is not an object. *)
Definition get (k : string) (j : json) : option json :=
  match j with
  | JObj o => o !! k
  | _ => None
  end.

(** Access along a path of keys. *)
Fixpoint get_path (p : list string) (j : json) : option json :=
  match p with
  | [] => Some j
  | k :: p' => match get k j with
               | Some j' => get_path p' j'
               | None => None
               end
  end.

Definition dquote : ascii := Ascii.ascii_of_nat 34.

(** [JSON.stringify] on the scalars that occur as literal arguments. *)
Definition print_decimal (d : decimal) : string :=
  match d with
  | Decimal i Nil => NilZero.string_of_int i
  | Decimal i f => NilZero.string_of_int i +:+ "." +:+ NilEmpty.string_of_uint f
  | DecimalExp i Nil e =>
      NilZero.string_of_int i +:+ "e" +:+ NilZero.string_of_int e
  | DecimalExp i f e =>
      NilZero.string_of_int i +:+ "." +:+ NilEmpty.string_of_uint f
        +:+ "e" +:+ NilZero.string_of_int e
  end.

Definition print_scalar (j : json) : option string :=
  match j with
  | JNull => Some "null"
  | JBool true => Some "true"
  | JBool false => Some "false"
  | JNum d => Some (print_decimal d)
  | JStr s => Some (String dquote (s +:+ String dquote EmptyString))
  | JArr _ | JObj _ => None
  end.

(** ** The runtime representation of a request ([relay-runtime])

    One constructor per value of the ["kind"] tag; the arguments of a
    constructor are the remaining keys of the object, in the order the
    artifacts print them. *)

(** Elements of an ["args"] array; [Variable_] is the kind ["Variable"]. *)
Inductive Argument :=
| Literal (name : string) (value : json)
| Variable_ (name : string) (variableName : string).

(** Elements of ["argumentDefinitions"] (kind ["LocalArgument"]). *)
Module LocalArgument.
Record t := mk { defaultValue : json; name : string }.
End LocalArgument.

(** Selections.  [Ref v] stands for a use of the scope variable [v] as an
    element of a selections array, [SRef v] for a use of [v] as the whole
    array (["selections": (v3/*: any*/)]). *)
Inductive Selection :=
| ScalarField (alias : option string) (args : option (list Argument))
    (name : string) (storageKey : option string)
| LinkedField (alias : option string) (args : option (list Argument))
    (concreteType : option string) (name : string) (plural : bool)
    (selections : Selections) (storageKey : option string)
| InlineFragment (selections : Selections) (type : string)
    (abstractKey : option string)
| TypeDiscriminator (abstractKey : string)
| FragmentSpread (args : option (list Argument)) (name : string)
| Ref (v : string)
with Selections :=
| SNil
| SCons (s : Selection) (rest : Selections)
| SRef (v : string).

Scheme Selection_mut := Induction for Selection Sort Prop
  with Selections_mut := Induction for Selections Sort Prop.

Notation "'sel[' ']'" := SNil.
Notation "'sel[' x ; .. ; y ']'" := (SCons x .. (SCons y SNil) ..).

(** The two trees of a request and its parameters. *)
Module ReaderFragment.
Record t := mk {
  argumentDefinitions : list LocalArgument.t;
  metadata : json;
  name : string;
  selections : Selections;
  type : string;
  abstractKey : option string }.
End ReaderFragment.

Module NormalizationOperation.
Record t := mk {
  argumentDefinitions : list LocalArgument.t;
  name : string;
  selections : Selections }.
End NormalizationOperation.

Inductive OperationKind := query | mutation | subscription.

Module RequestParameters.
Record t := mk {
  cacheID : string;
  id : option string;
  metadata : json;
  name : string;
  operationKind : OperationKind;
  text : string }.
End RequestParameters.

Record ConcreteRequest := {
  fragment : ReaderFragment.t;
  operation : NormalizationOperation.t;
  params : RequestParameters.t }.

(** ** The variables of the generating scope

    [var v2 = {...}, v3 = [...], v4 = {... (v2) ... (v3) ...}]: an ordered
    list of named entries.  An entry is a selection or a selections array and
    may use the variables declared before it. *)

Inductive Entry :=
| ESel (s : Selection)
| ESels (ss : Selections).

Definition Arena := list (string * Entry).

(** *** Inlining: every use of a variable replaced by a structural copy *)

Abbreviation subst := (gmap string Entry).

Fixpoint inline (sigma : subst) (s : Selection) : Selection :=
  match s with
  | LinkedField a ar ct n p ss sk =>
      LinkedField a ar ct n p (inlines sigma ss) sk
  | InlineFragment ss t ak => InlineFragment (inlines sigma ss) t ak
  | Ref v => match sigma !! v with
             | Some (ESel s') => s'
             | _ => Ref v
             end
  | ScalarField _ _ _ _ | TypeDiscriminator _ | FragmentSpread _ _ => s
  end
with inlines (sigma : subst) (ss : Selections) : Selections :=
  match ss with
  | SNil => SNil
  | SCons s rest => SCons (inline sigma s) (inlines sigma rest)
  | SRef v => match sigma !! v with
              | Some (ESels ss') => ss'
              | _ => SRef v
              end
  end.

Definition inline_entry (sigma : subst) (e : Entry) : Entry :=
  match e with
  | ESel s => ESel (inline sigma s)
  | ESels ss => ESels (inlines sigma ss)
  end.

(** The declarations are evaluated in order, each in the scope of the ones
    before it. *)
Definition close_from (sigma : subst) (a : Arena) : subst :=
  fold_left (fun sg d => <[ d.1 := inline_entry sg d.2 ]> sg) a sigma.

Definition close (a : Arena) : subst := close_from ∅ a.

(** ** The exported TypeScript types

    Only the type formers the two artifacts use.  Every property of the
    exported object types is [readonly]; a property is required ([!:]) or
    optional ([?:]). *)

Inductive tstype :=
| TNumber
| TString
| TNull
| TLit (s : string)
| TUnion (l r : tstype)
| TReadonlyArray (elem : tstype)
| TObject (ps : props)
| TFragmentRefs (name : string)
| TRecordNever
with props :=
| PNil
| PCons (key : string) (optional : bool) (ty : tstype) (rest : props).

Notation "k '!:' t ';;' r" := (PCons k false t r)
  (at level 60, t at next level, right associativity).
Notation "k '?:' t ';;' r" := (PCons k true t r)
  (at level 60, t at next level, right associativity).
Notation "a '|||' b" := (TUnion a b) (at level 50, left associativity).

(** Modelled from the spec: the shape validation of a response, which the
    execution engine performs (section 7: a response that misses a declared
    non-null field is a shape-validation failure).  It is taken as the
    structural conformance of the JSON value to the exported type: a required
    property must be present, a present property must conform, properties
    the type does not mention are allowed.  [FragmentRefs<"N">] is the object
    type [{ N: true }] and [Record<PropertyKey, never>] admits no
    property. *)
Fixpoint conforms (t : tstype) (j : json) {struct t} : bool :=
  match t, j with
  | TNumber, JNum _ => true
  | TString, JStr _ => true
  | TNull, JNull => true
  | TLit s, JStr s' => String.eqb s s'
  | TUnion l r, _ => conforms l j || conforms r j
  | TReadonlyArray e, JArr items => forallb (conforms e) items
  | TObject ps, JObj o => conforms_props ps o
  | TFragmentRefs n, JObj o =>
      match o !! n with Some (JBool true) => true | _ => false end
  | TRecordNever, JObj o =>
      match map_to_list o with [] => true | _ => false end
  | _, _ => false
  end
with conforms_props (ps : props) (o : record) {struct ps} : bool :=
  match ps with
  | PNil => true
  | PCons k optional t rest =>
      match o !! k with
      | Some v => conforms t v
      | None => optional
      end && conforms_props rest o
  end.

(** The field paths of a type: the chains of property names from the root,
    through arrays and the members of unions.  A property of type
    [FragmentRefs] names a fragment, not a field of the response. *)
Definition path := list string.

Fixpoint type_paths (t : tstype) : list path :=
  match t with
  | TUnion l r => type_paths l ++ type_paths r
  | TReadonlyArray e => type_paths e
  | TObject ps => props_paths ps
  | _ => []
  end
with props_paths (ps : props) : list path :=
  match ps with
  | PNil => []
  | PCons k _ (TFragmentRefs _) rest => props_paths rest
  | PCons k _ t rest =>
      [k] :: map (cons k) (type_paths t) ++ props_paths rest
  end.

(** A generated module: the exported types, the scope variables, the request
    they build and the source hash attached to the request. *)
Record Artifact := {
  variables : tstype;
  data : tstype;
  vars : Arena;
  node : ConcreteRequest;
  hash : string }.

(** The trees of an artifact as the runtime sees them once the generating
    function has returned. *)
Definition fragment_tree (a : Artifact) : Selections :=
  inlines (close (vars a)) (ReaderFragment.selections (fragment (node a))).

Definition operation_tree (a : Artifact) : Selections :=
  inlines (close (vars a))
    (NormalizationOperation.selections (operation (node a))).

Definition null {A} : option A := None.
Definition zero_point_five : json := JNum (Decimal (Pos (D0 Nil)) (D5 Nil)).

(** ** [SessionDetailsQuery.graphql.ts] *)

Module SessionDetailsQuery.

Definition AnnotatorKind : tstype := TLit "HUMAN" ||| TLit "LLM".

Definition SessionDetailsQuery_variables : tstype :=
  TObject ("id" !: TString ;; PNil).

Definition SessionDetailsQuery_data : tstype :=
  TObject (
    "session" !: TObject (
      "latencyP50" ?: TNumber ||| TNull ;;
      "numTraces" ?: TNumber ;;
      "sessionId" ?: TString ;;
      "tokenUsage" ?: TObject (
        "completion" !: TNumber ;;
        "prompt" !: TNumber ;;
        "total" !: TNumber ;; PNil) ;;
      "traces" ?: TObject (
        "edges" !: TReadonlyArray (TObject (
          "trace" !: TObject (
            "rootSpan" !: TObject (
              "attributes" !: TString ;;
              "context" !: TObject (
                "spanId" !: TString ;;
                "traceId" !: TString ;; PNil) ;;
              "cumulativeTokenCountCompletion" !: TNumber ||| TNull ;;
              "cumulativeTokenCountPrompt" !: TNumber ||| TNull ;;
              "cumulativeTokenCountTotal" !: TNumber ||| TNull ;;
              "id" !: TString ;;
              "input" !: TObject (
                "value" !: TString ;; PNil) ||| TNull ;;
              "latencyMs" !: TNumber ||| TNull ;;
              "output" !: TObject (
                "value" !: TString ;; PNil) ||| TNull ;;
              "project" !: TObject (
                "id" !: TString ;; PNil) ;;
              "spanAnnotations" !: TReadonlyArray (TObject (
                "annotatorKind" !: AnnotatorKind ;;
                "explanation" !: TString ||| TNull ;;
                "label" !: TString ||| TNull ;;
                "name" !: TString ;;
                "score" !: TNumber ||| TNull ;; PNil)) ;;
              "startTime" !: TString ;; PNil) ||| TNull ;; PNil) ;;
          PNil)) ;; PNil) ;; PNil) ;; PNil).

(** [v0] and [v1] hold argument lists, which have no selections below them:
    they are used by value.  [v2], [v3] and [v4] hold selections and are
    entries of the scope. *)
Definition v0 : list LocalArgument.t :=
  [ {| LocalArgument.defaultValue := JNull; LocalArgument.name := "id" |} ].

Definition v1 : list Argument :=
  [ Variable_ "id" "id" ].

Definition v2 : Selection :=
  ScalarField null null "id" null.

Definition v3 : Selections :=
  sel[ ScalarField null null "value" null ].

Definition v4 : Selection :=
  InlineFragment
    sel[ ScalarField null null "numTraces" null;
         LinkedField null null (Some "TokenUsage") "tokenUsage" false
           sel[ ScalarField null null "total" null;
                ScalarField null null "completion" null;
                ScalarField null null "prompt" null ]
           null;
         ScalarField null null "sessionId" null;
         ScalarField (Some "latencyP50")
           (Some [ Literal "probability" zero_point_five ])
           "traceLatencyMsQuantile"
           (Some "traceLatencyMsQuantile(probability:0.5)");
         LinkedField null null (Some "TraceConnection") "traces" false
           sel[ LinkedField null null (Some "TraceEdge") "edges" true
             sel[ LinkedField (Some "trace") null (Some "Trace") "node" false
               sel[ LinkedField null null (Some "Span") "rootSpan" false
                 sel[ Ref "v2";
                      ScalarField null null "attributes" null;
                      LinkedField null null (Some "Project") "project" false
                        sel[ Ref "v2" ]
                        null;
                      LinkedField null null (Some "SpanIOValue") "input" false
                        (SRef "v3")
                        null;
                      LinkedField null null (Some "SpanIOValue") "output" false
                        (SRef "v3")
                        null;
                      ScalarField null null "cumulativeTokenCountTotal" null;
                      ScalarField null null "cumulativeTokenCountCompletion" null;
                      ScalarField null null "cumulativeTokenCountPrompt" null;
                      ScalarField null null "latencyMs" null;
                      ScalarField null null "startTime" null;
                      LinkedField null null (Some "SpanAnnotation")
                        "spanAnnotations" true
                        sel[ ScalarField null null "name" null;
                             ScalarField null null "label" null;
                             ScalarField null null "score" null;
                             ScalarField null null "explanation" null;
                             ScalarField null null "annotatorKind" null ]
                        null;
                      LinkedField null null (Some "SpanContext") "context" false
                        sel[ ScalarField null null "traceId" null;
                             ScalarField null null "spanId" null ]
                        null ]
                 null ]
               null ]
             null ]
           null ]
    "ProjectSession"
    null.

Definition locals : Arena :=
  [ ("v2", ESel v2); ("v3", ESels v3); ("v4", ESel v4) ].

Definition text : string :=
"query SessionDetailsQuery(
  $id: GlobalID!
) {
  session: node(id: $id) {
    __typename
    ... on ProjectSession {
      numTraces
      tokenUsage {
        total
        completion
        prompt
      }
      sessionId
      latencyP50: traceLatencyMsQuantile(probability: 0.5)
      traces {
        edges {
          trace: node {
            rootSpan {
              id
              attributes
              project {
                id
              }
              input {
                value
              }
              output {
                value
              }
              cumulativeTokenCountTotal
              cumulativeTokenCountCompletion
              cumulativeTokenCountPrompt
              latencyMs
              startTime
              spanAnnotations {
                name
                label
                score
                explanation
                annotatorKind
              }
              context {
                traceId
                spanId
              }
            }
          }
        }
      }
    }
    __isNode: __typename
    id
  }
}
".

Definition request : ConcreteRequest := {|
  fragment := {|
    ReaderFragment.argumentDefinitions := v0;
    ReaderFragment.metadata := JNull;
    ReaderFragment.name := "SessionDetailsQuery";
    ReaderFragment.selections :=
      sel[ LinkedField (Some "session") (Some v1) null "node" false
             sel[ Ref "v4" ]
             null ];
    ReaderFragment.type := "Query";
    ReaderFragment.abstractKey := null |};
  operation := {|
    NormalizationOperation.argumentDefinitions := v0;
    NormalizationOperation.name := "SessionDetailsQuery";
    NormalizationOperation.selections :=
      sel[ LinkedField (Some "session") (Some v1) null "node" false
             sel[ ScalarField null null "__typename" null;
                  Ref "v4";
                  TypeDiscriminator "__isNode";
                  Ref "v2" ]
             null ] |};
  params := {|
    RequestParameters.cacheID := "44f2433d50767bdcd9eb7c62d1f2cbb7";
    RequestParameters.id := null;
    RequestParameters.metadata := JObj ∅;
    RequestParameters.name := "SessionDetailsQuery";
    RequestParameters.operationKind := query;
    RequestParameters.text := text |} |}.

Definition artifact : Artifact := {|
  variables := SessionDetailsQuery_variables;
  data := SessionDetailsQuery_data;
  vars := locals;
  node := request;
  hash := "4cf37bedf6f6d9f7b373d019055a89f4" |}.

End SessionDetailsQuery.

(** ** [ViewerContextRefetchQuery.graphql.ts] *)

Module ViewerContextRefetchQuery.

Definition ViewerContextRefetchQuery_variables : tstype := TRecordNever.

Definition ViewerContextRefetchQuery_data : tstype :=
  TObject (" $fragmentSpreads" !: TFragmentRefs "ViewerContext_viewer" ;; PNil).

Definition v0 : Selection :=
  ScalarField null null "id" null.

Definition v1 : Selection :=
  ScalarField null null "name" null.

Definition locals : Arena :=
  [ ("v0", ESel v0); ("v1", ESel v1) ].

Definition text : string :=
"query ViewerContextRefetchQuery {
  ...ViewerContext_viewer
}

fragment APIKeysTableFragment on User {
  apiKeys {
    id
    name
    description
    createdAt
    expiresAt
  }
  id
}

fragment ViewerContext_viewer on Query {
  viewer {
    id
    username
    email
    profilePictureUrl
    role {
      name
    }
    ...APIKeysTableFragment
  }
}
".

Definition request : ConcreteRequest := {|
  fragment := {|
    ReaderFragment.argumentDefinitions := [];
    ReaderFragment.metadata := JNull;
    ReaderFragment.name := "ViewerContextRefetchQuery";
    ReaderFragment.selections :=
      sel[ FragmentSpread null "ViewerContext_viewer" ];
    ReaderFragment.type := "Query";
    ReaderFragment.abstractKey := null |};
  operation := {|
    NormalizationOperation.argumentDefinitions := [];
    NormalizationOperation.name := "ViewerContextRefetchQuery";
    NormalizationOperation.selections :=
      sel[ LinkedField null null (Some "User") "viewer" false
             sel[ Ref "v0";
                  ScalarField null null "username" null;
                  ScalarField null null "email" null;
                  ScalarField null null "profilePictureUrl" null;
                  LinkedField null null (Some "UserRole") "role" false
                    sel[ Ref "v1" ]
                    null;
                  LinkedField null null (Some "UserApiKey") "apiKeys" true
                    sel[ Ref "v0";
                         Ref "v1";
                         ScalarField null null "description" null;
                         ScalarField null null "createdAt" null;
                         ScalarField null null "expiresAt" null ]
                    null ]
             null ] |};
  params := {|
    RequestParameters.cacheID := "4c8790abe3ec8e077913422cb62c6b3f";
    RequestParameters.id := null;
    RequestParameters.metadata := JObj ∅;
    RequestParameters.name := "ViewerContextRefetchQuery";
    RequestParameters.operationKind := query;
    RequestParameters.text := text |} |}.

Definition artifact : Artifact := {|
  variables := ViewerContextRefetchQuery_variables;
  data := ViewerContextRefetchQuery_data;
  vars := locals;
  node := request;
  hash := "0fda3314d35e251b11f0ed180df72f44" |}.

End ViewerContextRefetchQuery.

(** The generated bindings of the repository. *)
Definition bindings : list Artifact :=
  [ SessionDetailsQuery.artifact; ViewerContextRefetchQuery.artifact ].

Definition cacheID (a : Artifact) : string :=
  RequestParameters.cacheID (params (node a)).

Definition query_text (a : Artifact) : string :=
  RequestParameters.text (params (node a)).

(** ** The wire query text

    The text of a request is a GraphQL document: one operation followed by
    the fragments it spreads.  The lexer and the parser cover the grammar the
    generated texts are printed in. *)

Inductive token :=
| KName (s : string)      (* a name or a literal *)
| KPunct (c : ascii)      (* one of the brackets, [:], [$], [!] *)
| KSpread.                (* three dots *)

Definition is_ignored (c : ascii) : bool :=
  match Ascii.nat_of_ascii c with
  | 9 | 10 | 13 | 32 | 44 => true     (* tab, line feed, return, space, comma *)
  | _ => false
  end.

Definition is_punct (c : ascii) : bool :=
  match Ascii.nat_of_ascii c with
  | 33 | 36 | 40 | 41 | 58 | 123 | 125 => true    (* ! $ ( ) : { } *)
  | _ => false
  end.

(** A finished word: a leading run of three dots is the spread operator. *)
Definition flush (w : string) (k : list token) : list token :=
  match w with
  | EmptyString => k
  | String "." (String "." (String "." EmptyString)) => KSpread :: k
  | String "." (String "." (String "." n)) => KSpread :: KName n :: k
  | _ => KName w :: k
  end.

Fixpoint lex_from (w : string) (s : string) : list token :=
  match s with
  | EmptyString => flush w []
  | String c s' =>
      if is_ignored c then flush w (lex_from EmptyString s')
      else if is_punct c then flush w (KPunct c :: lex_from EmptyString s')
      else lex_from (w +:+ String c EmptyString) s'
  end.

Definition lex (s : string) : list token := lex_from EmptyString s.

Inductive gvalue :=
| GVar (name : string)        (* [$name] *)
| GConst (lexeme : string).

Inductive gsel :=
| GField (alias : option string) (name : string)
    (args : list (string * gvalue)) (sub : list gsel)
| GInline (on : string) (sub : list gsel)     (* [... on T { }] *)
| GSpread (name : string).                    (* [...Name] *)

Inductive gdef :=
| GOperation (kind : OperationKind) (name : string)
    (vardefs : list (string * string)) (body : list gsel)
| GFragment (name : string) (on : string) (body : list gsel).

Definition document := list gdef.

(** [(name: value ...)], after the opening bracket. *)
Fixpoint parse_args (ts : list token) :
    option (list (string * gvalue) * list token) :=
  match ts with
  | KPunct ")" :: r => Some ([], r)
  | KName k :: KPunct ":" :: KPunct "$" :: KName v :: r =>
      match parse_args r with
      | Some (l, r') => Some ((k, GVar v) :: l, r')
      | None => None
      end
  | KName k :: KPunct ":" :: KName c :: r =>
      match parse_args r with
      | Some (l, r') => Some ((k, GConst c) :: l, r')
      | None => None
      end
  | _ => None
  end.

(** [($name: Type ...)], after the opening bracket. *)
Fixpoint parse_vardefs (ts : list token) :
    option (list (string * string) * list token) :=
  match ts with
  | KPunct ")" :: r => Some ([], r)
  | KPunct "$" :: KName v :: KPunct ":" :: KName t :: KPunct "!" :: r =>
      match parse_vardefs r with
      | Some (l, r') => Some ((v, t +:+ "!") :: l, r')
      | None => None
      end
  | KPunct "$" :: KName v :: KPunct ":" :: KName t :: r =>
      match parse_vardefs r with
      | Some (l, r') => Some ((v, t) :: l, r')
      | None => None
      end
  | _ => None
  end.

Definition parse_opt_args (ts : list token) :
    option (list (string * gvalue) * list token) :=
  match ts with
  | KPunct "(" :: r => parse_args r
  | _ => Some ([], ts)
  end.

(** The selections of a set, after its opening brace, up to and including
    the closing one. *)
Fixpoint parse_selections (fuel : nat) (ts : list token) :
    option (list gsel * list token) :=
  match fuel with
  | O => None
  | S fuel =>
      let field alias name r :=
        match parse_opt_args r with
        | Some (args, KPunct "{" :: r1) =>
            match parse_selections fuel r1 with
            | Some (sub, r2) =>
                match parse_selections fuel r2 with
                | Some (rest, r3) => Some (GField alias name args sub :: rest, r3)
                | None => None
                end
            | None => None
            end
        | Some (args, r1) =>
            match parse_selections fuel r1 with
            | Some (rest, r3) => Some (GField alias name args [] :: rest, r3)
            | None => None
            end
        | None => None
        end in
      match ts with
      | KPunct "}" :: r => Some ([], r)
      | KSpread :: KName "on" :: KName t :: KPunct "{" :: r =>
          match parse_selections fuel r with
          | Some (sub, r1) =>
              match parse_selections fuel r1 with
              | Some (rest, r2) => Some (GInline t sub :: rest, r2)
              | None => None
              end
          | None => None
          end
      | KSpread :: KName n :: r =>
          match parse_selections fuel r with
          | Some (rest, r1) => Some (GSpread n :: rest, r1)
          | None => None
          end
      | KName a :: KPunct ":" :: KName n :: r => field (Some a) n r
      | KName n :: r => field None n r
      | _ => None
      end
  end.

Definition operation_kind (w : string) : option OperationKind :=
  if String.eqb w "query" then Some query
  else if String.eqb w "mutation" then Some mutation
  else if String.eqb w "subscription" then Some subscription
  else None.

Fixpoint parse_document (fuel : nat) (ts : list token) : option document :=
  match fuel with
  | O => None
  | S fuel' =>
      match ts with
      | [] => Some []
      | KName "fragment" :: KName n :: KName "on" :: KName t :: KPunct "{" :: r =>
          match parse_selections fuel r with
          | Some (body, r1) =>
              match parse_document fuel' r1 with
              | Some ds => Some (GFragment n t body :: ds)
              | None => None
              end
          | None => None
          end
      | KName w :: KName n :: r =>
          match operation_kind w with
          | Some k =>
              let header :=
                match r with
                | KPunct "(" :: r0 => parse_vardefs r0
                | _ => Some ([], r)
                end in
              match header with
              | Some (vds, KPunct "{" :: r1) =>
                  match parse_selections fuel r1 with
                  | Some (body, r2) =>
                      match parse_document fuel' r2 with
                      | Some ds => Some (GOperation k n vds body :: ds)
                      | None => None
                      end
                  | None => None
                  end
              | _ => None
              end
          | None => None
          end
      | _ => None
      end
  end.

(** Every call consumes a token, so the number of tokens is fuel enough. *)
Definition parse (s : string) : option document :=
  let ts := lex s in parse_document (S (length ts)) ts.

(** *** Field paths and variables of a document *)

Definition response_key (alias : option string) (name : string) : string :=
  default name alias.

Fixpoint find_fragment (d : document) (n : string) : option (list gsel) :=
  match d with
  | [] => None
  | GFragment n' _ body :: d' =>
      if String.eqb n n' then Some body else find_fragment d' n
  | GOperation _ _ _ _ :: d' => find_fragment d' n
  end.

(** The paths a selection declares.  An inline fragment and a fragment
    spread declare the paths of their selections at the place where they
    stand; [depth] bounds the nesting of spreads. *)
Fixpoint gsel_paths (d : document) (depth : nat) : gsel -> list path :=
  fix go (s : gsel) : list path :=
    match s with
    | GField a n _ sub =>
        let k := response_key a n in
        [k] :: map (cons k) (flat_map go sub)
    | GInline _ sub => flat_map go sub
    | GSpread n =>
        match depth, find_fragment d n with
        | S depth', Some body => flat_map (gsel_paths d depth') body
        | _, _ => []
        end
    end.

Definition operation_body (d : document) : option (list gsel) :=
  match d with
  | GOperation _ _ _ body :: _ => Some body
  | _ => None
  end.

Definition document_paths (d : document) : option (list path) :=
  match operation_body d with
  | Some body => Some (flat_map (gsel_paths d (length d)) body)
  | None => None
  end.

Definition text_paths (s : string) : option (list path) :=
  match parse s with
  | Some d => document_paths d
  | None => None
  end.

(** The variables a text declares in the header of its operation. *)
Definition document_declared (d : document) : list string :=
  match d with
  | GOperation _ _ vds _ :: _ => map fst vds
  | _ => []
  end.

(** The binding sites of a text: the places [name: $variable] where a
    variable is bound to an argument, in the operation and its fragments. *)
Definition arg_variables (args : list (string * gvalue)) : list string :=
  flat_map (fun a => match a.2 with GVar v => [v] | GConst _ => [] end) args.

Fixpoint gsel_binding_sites (s : gsel) : list string :=
  match s with
  | GField _ _ args sub => arg_variables args ++ flat_map gsel_binding_sites sub
  | GInline _ sub => flat_map gsel_binding_sites sub
  | GSpread _ => []
  end.

Definition gdef_body (g : gdef) : list gsel :=
  match g with
  | GOperation _ _ _ body => body
  | GFragment _ _ body => body
  end.

Definition document_binding_sites (d : document) : list string :=
  flat_map (fun g => flat_map gsel_binding_sites (gdef_body g)) d.

(** ** Reading the selection trees *)

(** The paths a tree selects, by response key.  A type discriminator is the
    field its [abstractKey] names. *)
Fixpoint selection_paths (s : Selection) : list path :=
  match s with
  | ScalarField a _ n _ => [[response_key a n]]
  | LinkedField a _ _ n _ ss _ =>
      let k := response_key a n in
      [k] :: map (cons k) (selections_paths ss)
  | InlineFragment ss _ _ => selections_paths ss
  | TypeDiscriminator k => [[k]]
  | FragmentSpread _ _ | Ref _ => []
  end
with selections_paths (ss : Selections) : list path :=
  match ss with
  | SNil | SRef _ => []
  | SCons s rest => selection_paths s ++ selections_paths rest
  end.

Definition same_paths (l1 l2 : list path) : Prop := l1 ⊆ l2 ∧ l2 ⊆ l1.

(** The selections of an array, and every field node below a tree. *)
Fixpoint elements (ss : Selections) : list Selection :=
  match ss with
  | SNil | SRef _ => []
  | SCons s rest => s :: elements rest
  end.

Fixpoint field_nodes (s : Selection) : list Selection :=
  match s with
  | ScalarField _ _ _ _ => [s]
  | LinkedField _ _ _ _ _ ss _ => s :: field_nodes_of ss
  | InlineFragment ss _ _ => field_nodes_of ss
  | TypeDiscriminator _ | FragmentSpread _ _ | Ref _ => []
  end
with field_nodes_of (ss : Selections) : list Selection :=
  match ss with
  | SNil | SRef _ => []
  | SCons s rest => field_nodes s ++ field_nodes_of rest
  end.

Definition all_field_nodes (a : Artifact) : list Selection :=
  field_nodes_of (fragment_tree a) ++ field_nodes_of (operation_tree a).

Definition field_args (s : Selection) : option (list Argument) :=
  match s with
  | ScalarField _ ar _ _ | LinkedField _ ar _ _ _ _ _ => ar
  | _ => None
  end.

Definition field_name (s : Selection) : string :=
  match s with
  | ScalarField _ _ n _ | LinkedField _ _ _ n _ _ _ => n
  | _ => ""
  end.

Definition field_key (s : Selection) : string :=
  match s with
  | ScalarField a _ n _ | LinkedField a _ _ n _ _ _ => response_key a n
  | _ => ""
  end.

Definition field_storageKey (s : Selection) : option string :=
  match s with
  | ScalarField _ _ _ sk | LinkedField _ _ _ _ _ _ sk => sk
  | _ => None
  end.

Definition field_selections (s : Selection) : list Selection :=
  match s with
  | LinkedField _ _ _ _ _ ss _ => elements ss
  | _ => []
  end.

(** The variables the arguments of a tree refer to. *)
Definition argument_variables (ar : option (list Argument)) : list string :=
  flat_map (fun a => match a with
                     | Variable_ _ v => [v]
                     | Literal _ _ => []
                     end) (default [] ar).

Definition declared_variables (a : Artifact) : list string :=
  map LocalArgument.name
    (NormalizationOperation.argumentDefinitions (operation (node a))).

(** *** Storage keys

    The key under which a field with arguments is stored is its name
    followed by the bracketed list of [argument:value]; it can be written
    into the artifact only when every value is a literal. *)

Definition is_literal (a : Argument) : bool :=
  match a with Literal _ _ => true | Variable_ _ _ => false end.

Definition print_argument (a : Argument) : string :=
  match a with
  | Literal n v => n +:+ ":" +:+ default "" (print_scalar v)
  | Variable_ n v => n +:+ ":$" +:+ v
  end.

Fixpoint join (sep : string) (l : list string) : string :=
  match l with
  | [] => ""
  | [x] => x
  | x :: l' => x +:+ sep +:+ join sep l'
  end.

Definition format_storage_key (name : string) (l : list Argument) : string :=
  name +:+ "(" +:+ join "," (map print_argument l) +:+ ")".

Definition static_storage_key (name : string) (ar : option (list Argument)) :
    option string :=
  match ar with
  | Some (a :: l) =>
      if forallb is_literal (a :: l)
      then Some (format_storage_key name (a :: l))
      else None
  | _ => None
  end.

(** *** Polymorphic fields *)

Definition is_polymorphic (s : Selection) : bool :=
  match s with
  | LinkedField _ _ None _ _ _ _ => true
  | _ => false
  end.

Definition is_typename (s : Selection) : bool :=
  match s with
  | ScalarField None None "__typename" None => true
  | _ => false
  end.

Definition is_discriminator (s : Selection) : bool :=
  match s with
  | TypeDiscriminator _ => true
  | _ => false
  end.

Definition is_id (s : Selection) : bool :=
  match s with
  | ScalarField None None "id" None => true
  | _ => false
  end.

(** A branch on a concrete type: an inline fragment without an abstract
    key, with selections of its own. *)
Definition is_branch (s : Selection) : bool :=
  match s with
  | InlineFragment (SCons _ _) _ None => true
  | _ => false
  end.

Definition branches (s : Selection) : list Selection :=
  filter (fun x => is_branch x = true) (field_selections s).

(** ** Projection of a response

    The artifacts are consumed by an execution engine that is not part of
    the repository.  What it does with a selection tree is taken from the
    specification. *)

Inductive outcome (A : Type) :=
| Done (a : A)
| Failed (why : string).
Arguments Done {A} a.
Arguments Failed {A} why.

Definition bind {A B} (m : outcome A) (k : A -> outcome B) : outcome B :=
  match m with
  | Done a => k a
  | Failed why => Failed why
  end.

Notation "'let*' x ':=' m 'in' k" := (bind m (fun x => k))
  (at level 10, x name, m at level 100, k at level 200).

(** The server-reported type tag of a record. *)
Definition typename (o : record) : option string :=
  match o !! "__typename" with
  | Some (JStr t) => Some t
  | _ => None
  end.

(** What a selection means: the part of the view it contributes for a
    record of the response.  The scope maps a variable to the meaning of
    the selection, or of the selections array, it holds. *)
Definition meaning := record -> outcome record.

Inductive denotation :=
| DSel (m : meaning)
| DSels (m : meaning).

Abbreviation scope := (gmap string denotation).

(** The elements of a plural field are read one by one. *)
Fixpoint read_items (m : meaning) (items : list json) : outcome (list json) :=
  match items with
  | [] => Done []
  | JNull :: rest =>
      let* rest' := read_items m rest in Done (JNull :: rest')
  | JObj o :: rest =>
      let* o' := m o in
      let* rest' := read_items m rest in Done (JObj o' :: rest')
  | _ :: _ => Failed "expected an object"
  end.

(** Modelled from the spec: the projection of a response through a selection
    tree, which the execution engine performs (section 6: it reads the
    selection trees to project views of the response).  A field is copied
    under its response key and is absent from the view when the response does
    not have it; a linked field is read through its own selections; a branch
    on a concrete type is read when the type tag of the record is that type
    and contributes nothing otherwise (sections 4.1 and 8); a discriminator
    and a fragment spread contribute no field.  A linked field whose value
    has the wrong shape is a failure (section 7). *)
Fixpoint read (rho : scope) (s : Selection) (o : record) : outcome record :=
  match s with
  | ScalarField a _ n _ =>
      let k := response_key a n in
      match o !! k with
      | Some v => Done {[ k := v ]}
      | None => Done ∅
      end
  | LinkedField a _ _ n plural ss _ =>
      let k := response_key a n in
      match o !! k, plural with
      | None, _ => Done ∅
      | Some JNull, _ => Done {[ k := JNull ]}
      | Some (JObj o'), false =>
          let* v := reads rho ss o' in Done {[ k := JObj v ]}
      | Some (JArr items), true =>
          let* vs := read_items (reads rho ss) items in Done {[ k := JArr vs ]}
      | Some _, false => Failed "expected an object"
      | Some _, true => Failed "expected an array"
      end
  | InlineFragment ss t None =>
      match typename o with
      | Some t' => if String.eqb t t' then reads rho ss o else Done ∅
      | None => Done ∅
      end
  | InlineFragment ss _ (Some k) =>
      match o !! k with
      | Some _ => reads rho ss o
      | None => Done ∅
      end
  | TypeDiscriminator _ => Done ∅
  | FragmentSpread _ _ => Done ∅
  | Ref v =>
      match rho !! v with
      | Some (DSel m) => m o
      | _ => Failed "not a selection"
      end
  end
with reads (rho : scope) (ss : Selections) (o : record) : outcome record :=
  match ss with
  | SNil => Done ∅
  | SCons s rest =>
      let* v := read rho s o in
      let* w := reads rho rest o in Done (v ∪ w)
  | SRef v =>
      match rho !! v with
      | Some (DSels m) => m o
      | _ => Failed "not a selections array"
      end
  end.

Definition denote (rho : scope) (e : Entry) : denotation :=
  match e with
  | ESel s => DSel (read rho s)
  | ESels ss => DSels (reads rho ss)
  end.

(** The scope a list of declarations builds, in order. *)
Definition scope_from (rho : scope) (a : Arena) : scope :=
  fold_left (fun r d => <[ d.1 := denote r d.2 ]> r) a rho.

Definition scope_of (a : Arena) : scope := scope_from ∅ a.

(** Projection through the trees as the artifact holds them: a use of a
    variable is followed into the scope. *)
Definition project (a : Artifact) (response : record) : outcome record :=
  reads (scope_of (vars a))
    (ReaderFragment.selections (fragment (node a))) response.

Definition project_operation (a : Artifact) (response : record) :
    outcome record :=
  reads (scope_of (vars a))
    (NormalizationOperation.selections (operation (node a))) response.

(** *** The type of a response covers a tree

    Every linked field of the tree has, in the object type, a property of
    the matching shape: an object type (or [null]) for a singular field, an
    array of them for a plural one. *)

Fixpoint lookup_prop (ps : props) (k : string) : option tstype :=
  match ps with
  | PNil => None
  | PCons k' _ t rest => if String.eqb k k' then Some t else lookup_prop rest k
  end.

Definition object_shape (t : tstype) : option props :=
  match t with
  | TObject ps | TUnion (TObject ps) TNull => Some ps
  | _ => None
  end.

Definition array_shape (t : tstype) : option props :=
  match t with
  | TReadonlyArray e | TUnion (TReadonlyArray e) TNull => object_shape e
  | _ => None
  end.

Fixpoint covers (ps : props) (s : Selection) : bool :=
  match s with
  | LinkedField a _ _ n plural ss _ =>
      match lookup_prop ps (response_key a n) with
      | Some t =>
          match (if plural then array_shape t else object_shape t) with
          | Some ps' => covers_all ps' ss
          | None => false
          end
      | None => false
      end
  | InlineFragment ss _ _ => covers_all ps ss
  | ScalarField _ _ _ _ | TypeDiscriminator _ | FragmentSpread _ _ => true
  | Ref _ => false
  end
with covers_all (ps : props) (ss : Selections) : bool :=
  match ss with
  | SNil => true
  | SCons s rest => covers ps s && covers_all ps rest
  | SRef _ => false
  end.

Definition data_props (a : Artifact) : props :=
  match data a with
  | TObject ps => ps
  | _ => PNil
  end.

(** ** [backend.dockerfile]

    The build as the ordered sequence of its instructions.  A [RUN] holds
    the words of its shell command.  An instruction that fails ends the
    build: a base image that cannot be had, a directory that cannot be
    made, a copy whose source is missing, a command whose exit status is
    not 0. *)

Module Dockerfile.

Inductive instruction :=
| FROM (image : string) (alias : string)
| ENV (key value : string)
| RUN (command : list string)
| WORKDIR (dir : string)
| COPY (from : option string) (src dest : string)
| CMD (argv : list string).

Definition backend : list instruction :=
  [ FROM "node:20-slim" "frontend-builder";
    ENV "PNPM_HOME" "/pnpm";
    ENV "PATH" "$PNPM_HOME:$PATH";
    RUN ["corepack"; "enable"];
    WORKDIR "/phoenix/app/";
    COPY None "./app" "/phoenix/app";
    RUN ["pnpm"; "install"];
    RUN ["pnpm"; "run"; "build"];
    FROM "python:3.11-bullseye" "backend-builder";
    WORKDIR "/phoenix";
    COPY None "./src" "/phoenix/src";
    COPY None "./pyproject.toml" "/phoenix/";
    COPY None "./LICENSE" "/phoenix/";
    COPY None "./IP_NOTICE" "/phoenix/";
    COPY None "./README.md" "/phoenix/";
    COPY (Some "frontend-builder") "/phoenix/src/phoenix/server/static/"
      "/phoenix/src/phoenix/server/static/";
    RUN ["find"; "src/"; "-xtype"; "l"; "-delete"];
    RUN ["pip"; "install"; "--target"; "./env"; ".[container, pg]"];
    CMD ["bash"] ].

(** The stage an instruction belongs to: the alias of the last [FROM]
    at or before it. *)
Fixpoint stage_from (current : option string) (l : list instruction) :
    list (option string) :=
  match l with
  | [] => []
  | FROM _ a :: l' => Some a :: stage_from (Some a) l'
  | _ :: l' => current :: stage_from current l'
  end.

Definition stages : list (option string) := stage_from None backend.

Definition is_copy (i : instruction) : bool :=
  match i with COPY _ _ _ => true | _ => false end.

Definition delete_links : instruction :=
  RUN ["find"; "src/"; "-xtype"; "l"; "-delete"].

Definition package : instruction :=
  RUN ["pip"; "install"; "--target"; "./env"; ".[container, pg]"].

(** *** The file system of a stage

    A file system maps the place of an entry, the names from the root
    directory down to it, to what is there.  The root directory has the
    empty place.  The target of a link is kept as the names its text stands
    for, from the root directory. *)

Abbreviation path := (list string).

Inductive file :=
| Regular
| Directory
| Symlink (target : path).

Abbreviation fs := (gmap path file).

(** The names of a path written with slashes; the name [.] stands for the
    directory it is met in and is left out.  (The paths of this file hold
    no [..].) *)
Definition add_name (name : string) (p : path) : path :=
  if String.eqb name "" || String.eqb name "." then p else name :: p.

Fixpoint components_from (name : string) (s : string) : path :=
  match s with
  | EmptyString => add_name name []
  | String c s' =>
      if Ascii.eqb c "/"
      then add_name name (components_from "" s')
      else components_from (name +:+ String c "") s'
  end.

Definition components (s : string) : path := components_from "" s.

Definition is_absolute (s : string) : bool := String.prefix "/" s.

(** *** Following a path

    What the system call [stat] answers: the entry a path leads to, or the
    error it meets on the way. *)
Inductive resolution :=
| Found (place : path) (is_directory : bool)
| ENOENT
| ENOTDIR
| ELOOP.

(** The kernel walks the names one by one from the directory [cwd].  A link
    is replaced by its target; [budget] is the number of links that may
    still be followed, and the next one is the error [ELOOP]. *)
Fixpoint walk (budget : nat) (f : fs) : path -> path -> resolution :=
  fix go (cwd rest : path) {struct rest} : resolution :=
    match rest with
    | [] => Found cwd true
    | c :: rest' =>
        match f !! (cwd ++ [c])%list with
        | None => ENOENT
        | Some Directory => go (cwd ++ [c])%list rest'
        | Some Regular =>
            match rest' with
            | [] => Found (cwd ++ [c])%list false
            | _ :: _ => ENOTDIR
            end
        | Some (Symlink t) =>
            match budget with
            | O => ELOOP
            | S b => walk b f [] (t ++ rest')%list
            end
        end
    end.

(** The kernel follows forty links in one walk. *)
Definition max_links : nat := 40.

(** [stat] of the entry [name] of the directory at [dir]. *)
Definition stat_at (f : fs) (dir : path) (name : string) : resolution :=
  walk max_links f dir [name].

(** [stat] of a path as it is written, for a process in the directory
    [cwd]. *)
Definition resolve (f : fs) (cwd : path) (s : string) : resolution :=
  walk max_links f (if is_absolute s then [] else cwd) (components s).

(** *** [find root -xtype l -delete]

    [find] meets the entries below its root one by one, each in the
    directory that holds it.  The test [-xtype l] holds of a link whose
    [stat] fails because the target is not there; of a link that is
    followed to a file it does not hold, and neither of an entry that is no
    link.  A link that cannot be followed for another reason ([ELOOP]) is
    an error: it is reported, the test does not hold, and the exit status
    of the command will not be 0. *)
Definition xtype_l (f : fs) (dir : path) (name : string) : option bool :=
  match f !! (dir ++ [name])%list with
  | Some (Symlink _) =>
      match stat_at f dir name with
      | Found _ _ => Some false
      | ENOENT | ENOTDIR => Some true
      | ELOOP => None
      end
  | _ => Some false
  end.

Definition entry_path (e : path * string) : path := (e.1 ++ [e.2])%list.

(** The link at [q] cannot be followed to an entry. *)
Definition broken (f : fs) (q : path) : Prop :=
  exists t, f !! q = Some (Symlink t) /\
            forall a d, walk (pred max_links) f [] t <> Found a d.

(** One entry: the file system and whether no error has been met. *)
Definition visit (s : fs * bool) (e : path * string) : fs * bool :=
  match xtype_l s.1 e.1 e.2 with
  | Some true => (delete (entry_path e) s.1, s.2)
  | Some false => s
  | None => (s.1, false)
  end.

(** The entries in the order [order]: the file system left, and whether the
    exit status is 0. *)
Definition find_delete (order : list (path * string)) (f : fs) : fs * bool :=
  foldl visit (f, true) order.

Definition join_path (dir rel : string) : string := dir +:+ "/" +:+ rel.

Fixpoint last_char (s : string) : option ascii :=
  match s with
  | EmptyString => None
  | String c EmptyString => Some c
  | String _ s' => last_char s'
  end.

(** The root of a command [find root/ -xtype l -delete].  The root is
    written with a final slash: it has to lead to a directory. *)
Definition find_delete_root (command : list string) : option string :=
  match command with
  | [c; root; test; kind; action] =>
      if String.eqb c "find" && String.eqb test "-xtype"
         && String.eqb kind "l" && String.eqb action "-delete"
         && bool_decide (last_char root = Some "/"%char)
      then Some root else None
  | _ => None
  end.

(** [d] is reached from [r] through directories only. *)
Fixpoint descends (f : fs) (r : path) (names : list string) : bool :=
  match names with
  | [] => true
  | c :: names' =>
      match f !! (r ++ [c])%list with
      | Some Directory => descends f (r ++ [c])%list names'
      | _ => false
      end
  end.

(** [find] meets every entry that is reached from its root through
    directories. *)
Definition meets_all (entries : fs -> path -> list (path * string)) : Prop :=
  forall f r names name,
    descends f r names = true ->
    is_Some (f !! (r ++ names ++ [name])%list) ->
    ((r ++ names)%list, name) ∈ entries f r.

(** Neither place is on the way to the other. *)
Definition apart (d p : path) : bool :=
  negb (bool_decide (d `prefix_of` p)) && negb (bool_decide (p `prefix_of` d)).

Record state := {
  workdir : string;
  files : fs;
  current : option string;
  completed : list (string * fs) }.

(** The file system a finished stage has left. *)
Fixpoint built_by (a : string) (l : list (string * fs)) : option fs :=
  match l with
  | [] => None
  | (a', f) :: l' => if String.eqb a a' then Some f else built_by a l'
  end.

Definition with_files (st : state) (f : fs) : state :=
  {| workdir := workdir st; files := f;
     current := current st; completed := completed st |}.

Section Build.

(** The parts of a build this file does not determine: the contents of the
    base images (none when the image cannot be had) and of the build
    context; what [WORKDIR] and [COPY] leave when they succeed; what the
    other commands leave when their exit status is 0; and the order in
    which [find] meets the entries below a directory. *)
Variable base_image : string -> option fs.
Variable context : fs.
Variable make_dir : string -> fs -> option fs.
Variable copy : fs -> string -> string -> string -> fs -> option fs.
Variable run_command : list string -> string -> fs -> option fs.
Variable entries : fs -> path -> list (path * string).

Definition finish (st : state) : list (string * fs) :=
  match current st with
  | Some a => (a, files st) :: completed st
  | None => completed st
  end.

(** [find] as the build runs it: in the working directory, from the root
    as written.  The step fails when the root does not lead to a directory
    or an error has been met. *)
Definition run_find (root : string) (dir : string) (f : fs) : option fs :=
  match resolve f [] dir with
  | Found w true =>
      match resolve f w root with
      | Found r true =>
          let result := find_delete (entries f r) f in
          if result.2 then Some result.1 else None
      | _ => None
      end
  | _ => None
  end.

(** One instruction; [None] when it fails, which ends the build. *)
Definition exec (i : instruction) (st : state) : option state :=
  match i with
  | FROM image a =>
      match base_image image with
      | Some f =>
          Some {| workdir := "/"; files := f;
                  current := Some a; completed := finish st |}
      | None => None
      end
  | ENV _ _ | CMD _ => Some st
  | WORKDIR d =>
      let d' := if is_absolute d then d else join_path (workdir st) d in
      match make_dir d' (files st) with
      | Some f =>
          Some {| workdir := d'; files := f;
                  current := current st; completed := completed st |}
      | None => None
      end
  | COPY None src dest =>
      option_map (with_files st)
        (copy context src (workdir st) dest (files st))
  | COPY (Some a) src dest =>
      match built_by a (completed st) with
      | Some built =>
          option_map (with_files st)
            (copy built src (workdir st) dest (files st))
      | None => None
      end
  | RUN command =>
      option_map (with_files st)
        match find_delete_root command with
        | Some root => run_find root (workdir st) (files st)
        | None => run_command command (workdir st) (files st)
        end
  end.

Fixpoint exec_all (l : list instruction) (st : state) : option state :=
  match l with
  | [] => Some st
  | i :: l' =>
      match exec i st with
      | Some st' => exec_all l' st'
      | None => None
      end
  end.

Definition initial : state :=
  {| workdir := "/"; files := ∅; current := None; completed := [] |}.

(** The state in which the [n]-th instruction starts, when the build gets
    there. *)
Definition state_before (n : nat) : option state :=
  exec_all (take n backend) initial.

End Build.

(** The working directory and the stage, which an instruction sets
    whatever the files are. *)
Definition track (s : string * option string) (i : instruction) :
    string * option string :=
  match i with
  | FROM _ a => ("/", Some a)
  | WORKDIR d => (if is_absolute d then d else join_path s.1 d, s.2)
  | _ => s
  end.

Definition is_from (i : instruction) : bool :=
  match i with FROM _ _ => true | _ => false end.

(** The instruction names no place to write to but places below [root]:
    the directory of a [WORKDIR] and the destination of a [COPY] are
    written from the root directory and lead through [root]; a command is
    the deletion of links. *)
Definition writes_below (root : path) (i : instruction) : bool :=
  match i with
  | WORKDIR d | COPY _ _ d =>
      is_absolute d && bool_decide (root `prefix_of` components d)
  | RUN command => bool_decide (is_Some (find_delete_root command))
  | ENV _ _ | CMD _ => true
  | FROM _ _ => false
  end.

(** *** A sample build

    A base image with an interpreter; a build context whose sources hold
    two links used during development, into the build directory of the
    frontend, and a link to the license; a [WORKDIR] that makes the
    directories on its way; a [COPY] that lays a tree or a file of the
    source at the destination; a build step that leaves the page where the
    server looks for it; and [find] meeting the entries in the order of the
    map. *)

Fixpoint make_dirs (f : fs) (cwd names : path) : option fs :=
  match names with
  | [] => Some f
  | c :: names' =>
      match f !! (cwd ++ [c])%list with
      | None =>
          make_dirs (<[ (cwd ++ [c])%list := Directory ]> f)
            (cwd ++ [c])%list names'
      | Some Directory => make_dirs f (cwd ++ [c])%list names'
      | Some _ => None
      end
  end.

Definition sample_make_dir (d : string) (f : fs) : option fs :=
  make_dirs f [] (components d).

Definition move (s d : path) (e : path * file) : option (path * file) :=
  if bool_decide (s `prefix_of` e.1)
  then Some ((d ++ drop (length s) e.1)%list, e.2) else None.

Definition sample_copy (source : fs) (src dir dest : string) (f : fs) :
    option fs :=
  let s := components src in
  let d := ((if is_absolute dest then [] else components dir)
              ++ components dest)%list in
  match source !! s with
  | None => None
  | Some Directory =>
      Some (list_to_map (omap (move s d) (map_to_list source)) ∪ f)
  | Some x =>
      Some (<[ (if bool_decide (last_char dest = Some "/"%char)
                then (d ++ drop (pred (length s)) s)%list else d) := x ]> f)
  end.

Definition static : path := ["phoenix"; "src"; "phoenix"; "server"; "static"].

Definition sample_run_command (command : list string) (dir : string)
    (f : fs) : option fs :=
  if bool_decide (command = ["pnpm"; "run"; "build"])
  then option_map (insert (static ++ ["index.html"])%list Regular)
         (make_dirs f [] static)
  else if bool_decide (command ∈ [ ["corepack"; "enable"];
                                   ["pnpm"; "install"];
                                   ["pip"; "install"; "--target"; "./env";
                                    ".[container, pg]"] ])
  then Some f else None.

Definition sample_base_image (image : string) : option fs :=
  if String.eqb image "node:20-slim"
  then Some {[ ["usr"] := Directory; ["usr"; "node"] := Regular ]}
  else if String.eqb image "python:3.11-bullseye"
  then Some {[ ["usr"] := Directory; ["usr"; "python"] := Regular ]}
  else None.

Definition sample_context : fs :=
  list_to_map
    [ (["app"], Directory);
      (["app"; "package.json"], Regular);
      (["src"], Directory);
      (["src"; "phoenix"], Directory);
      (["src"; "phoenix"; "__init__.py"], Regular);
      (["src"; "phoenix"; "license"], Symlink ["phoenix"; "LICENSE"]);
      (["src"; "phoenix"; "server"], Directory);
      (["src"; "phoenix"; "server"; "static"], Directory);
      (["src"; "phoenix"; "server"; "static"; "index.html"], Symlink ["phoenix"; "app"; "dist"; "index.html"]);
      (["src"; "phoenix"; "server"; "static"; "modernizr.js"], Symlink ["phoenix"; "app"; "dist"; "modernizr.js"]);
      (["pyproject.toml"], Regular);
      (["LICENSE"], Regular);
      (["IP_NOTICE"], Regular);
      (["README.md"], Regular) ].

Definition entry_of (r p : path) : option (path * string) :=
  match reverse p with
  | name :: dir =>
      if bool_decide (r `prefix_of` reverse dir)
      then Some (reverse dir, name) else None
  | [] => None
  end.

Definition sample_entries (f : fs) (r : path) : list (path * string) :=
  omap (entry_of r) (map fst (map_to_list f)).

(** A tree of links: to itself, in a circle, to nothing, to a file, to a
    directory and through it, through a file, to a link to nothing and to
    a link of the circle. *)
Definition sample_tree : fs :=
  list_to_map
    [ (["out"], Directory);
      (["out"; "target"], Regular);
      (["src"], Directory);
      (["src"; "real"], Directory);
      (["src"; "real"; "file"], Regular);
      (["src"; "self"], Symlink ["src"; "self"]);
      (["src"; "p"], Symlink ["src"; "q"]);
      (["src"; "q"], Symlink ["src"; "p"]);
      (["src"; "dangling"], Symlink ["nonexistent"]);
      (["src"; "ok"], Symlink ["out"; "target"]);
      (["src"; "dirlink"], Symlink ["src"; "real"]);
      (["src"; "via"], Symlink ["src"; "dirlink"; "file"]);
      (["src"; "viabroken"], Symlink ["src"; "dirlink"; "missing"]);
      (["src"; "notdir"], Symlink ["src"; "real"; "file"; "x"]);
      (["src"; "todangling"], Symlink ["src"; "dangling"]);
      (["src"; "toloop"], Symlink ["src"; "p"]) ].

(** The context with a link to itself among the sources, and the context
    without the license. *)
Definition context_with_loop : fs :=
  <[ ["src"; "phoenix"; "loop"] := Symlink ["phoenix"; "src"; "phoenix"; "loop"] ]>
    sample_context.

Definition context_without_license : fs := delete ["LICENSE"] sample_context.

End Dockerfile.

(** ** The digest of a text

    The cache identities are digests of the query texts.  The generator that
    computes them is not part of the repository; the digest is MD5 (RFC
    1321), defined here on the bytes of a string, with 32-bit words as
    integers modulo [2^32]. *)

Module MD5.

#[local] Open Scope Z_scope.

Definition word (x : Z) : Z := x mod 2 ^ 32.

Definition rotl (x : Z) (n : Z) : Z :=
  word (Z.lor (Z.shiftl x n) (Z.shiftr x (32 - n))).

Definition word_not (x : Z) : Z := Z.lxor x (2 ^ 32 - 1).

(** The sine table and the rotation amounts of the four rounds. *)
Definition K : list Z :=
  [
    3614090360; 3905402710; 606105819; 3250441966;
    4118548399; 1200080426; 2821735955; 4249261313;
    1770035416; 2336552879; 4294925233; 2304563134;
    1804603682; 4254626195; 2792965006; 1236535329;
    4129170786; 3225465664; 643717713; 3921069994;
    3593408605; 38016083; 3634488961; 3889429448;
    568446438; 3275163606; 4107603335; 1163531501;
    2850285829; 4243563512; 1735328473; 2368359562;
    4294588738; 2272392833; 1839030562; 4259657740;
    2763975236; 1272893353; 4139469664; 3200236656;
    681279174; 3936430074; 3572445317; 76029189;
    3654602809; 3873151461; 530742520; 3299628645;
    4096336452; 1126891415; 2878612391; 4237533241;
    1700485571; 2399980690; 4293915773; 2240044497;
    1873313359; 4264355552; 2734768916; 1309151649;
    4149444226; 3174756917; 718787259; 3951481745 ].

Definition S : list Z :=
  [ 7; 12; 17; 22; 7; 12; 17; 22; 7; 12; 17; 22; 7; 12; 17; 22;
    5; 9; 14; 20; 5; 9; 14; 20; 5; 9; 14; 20; 5; 9; 14; 20;
    4; 11; 16; 23; 4; 11; 16; 23; 4; 11; 16; 23; 4; 11; 16; 23;
    6; 10; 15; 21; 6; 10; 15; 21; 6; 10; 15; 21; 6; 10; 15; 21 ].

Definition bytes_of (s : string) : list Z :=
  map (fun c => Z.of_nat (Ascii.nat_of_ascii c)) (String.list_ascii_of_string s).

(** [n] as [k] bytes, least significant first. *)
Fixpoint le_bytes (k : nat) (n : Z) : list Z :=
  match k with
  | O => []
  | Datatypes.S k' => n mod 256 :: le_bytes k' (n / 256)
  end.

Fixpoint le_word (bs : list Z) : Z :=
  match bs with
  | [] => 0
  | b :: bs' => b + 256 * le_word bs'
  end.

(** The message followed by the bit [1], zeros up to 56 modulo 64 bytes, and
    its length in bits as 8 bytes. *)
Definition pad (msg : list Z) : list Z :=
  let len := Z.of_nat (length msg) in
  let zeros := Z.to_nat ((55 - len) mod 64) in
  (msg ++ 128 :: repeat 0 zeros ++ le_bytes 8 (8 * len))%list.

Fixpoint chunks (n : nat) (size : nat) (l : list Z) : list (list Z) :=
  match n with
  | O => []
  | Datatypes.S n' => take size l :: chunks n' size (drop size l)
  end.

Definition blocks (msg : list Z) : list (list Z) :=
  map (fun b => map le_word (chunks 16 4 b))
    (chunks (length msg / 64) 64 msg).

Definition state : Type := Z * Z * Z * Z.

Definition step (m : list Z) (st : state) (i : nat) : state :=
  let '(a, b, c, d) := st in
  let '(f, g) :=
    match (i / 16)%nat with
    | 0%nat => (Z.lor (Z.land b c) (Z.land (word_not b) d), i)
    | 1%nat => (Z.lor (Z.land d b) (Z.land (word_not d) c),
                ((5 * i + 1) mod 16)%nat)
    | 2%nat => (Z.lxor (Z.lxor b c) d, ((3 * i + 5) mod 16)%nat)
    | _ => (Z.lxor c (Z.lor b (word_not d)), ((7 * i) mod 16)%nat)
    end in
  let x := word (a + f + nth i K 0 + nth g m 0) in
  (d, word (b + rotl x (nth i S 0)), b, c).

Definition compress (st : state) (m : list Z) : state :=
  let '(a, b, c, d) := st in
  let '(a', b', c', d') := fold_left (step m) (seq 0 64) st in
  (word (a + a'), word (b + b'), word (c + c'), word (d + d')).

Definition init : state := (1732584193, 4023233417, 2562383102, 271733878).

Definition digest (s : string) : list Z :=
  let '(a, b, c, d) := fold_left compress (blocks (pad (bytes_of s))) init in
  (le_bytes 4 a ++ le_bytes 4 b ++ le_bytes 4 c ++ le_bytes 4 d)%list.

Definition hex_digit (n : Z) : ascii :=
  Ascii.ascii_of_nat (Z.to_nat (if n <? 10 then 48 + n else 87 + n)).

Fixpoint hex (bs : list Z) : string :=
  match bs with
  | [] => EmptyString
  | b :: bs' => String (hex_digit (b / 16)) (String (hex_digit (b mod 16)) (hex bs'))
  end.

Definition hex_digest (s : string) : string := hex (digest s).

End MD5.

(** ** Auxiliary notions for the statements *)

(** The properties of an object type, its member types, and an object type
    with the properties of one key kept or removed. *)
Definition props_of (t : tstype) : props :=
  match t with
  | TObject ps => ps
  | _ => PNil
  end.

Definition member (k : string) (t : tstype) : tstype :=
  default TNull (lookup_prop (props_of t) k).

Definition type_at (p : path) (t : tstype) : tstype :=
  fold_left (fun t k => member k t) p t.

Fixpoint remove_prop (k : string) (ps : props) : props :=
  match ps with
  | PNil => PNil
  | PCons k' opt t rest =>
      if String.eqb k k' then remove_prop k rest
      else PCons k' opt t (remove_prop k rest)
  end.

Fixpoint keep_prop (k : string) (ps : props) : props :=
  match ps with
  | PNil => PNil
  | PCons k' opt t rest =>
      if String.eqb k k' then PCons k' opt t (keep_prop k rest)
      else keep_prop k rest
  end.

(** Every selection of a tree, the nested ones included. *)
Fixpoint all_selections (s : Selection) : list Selection :=
  match s with
  | LinkedField _ _ _ _ _ ss _ | InlineFragment ss _ _ =>
      s :: all_selections_of ss
  | _ => [s]
  end
with all_selections_of (ss : Selections) : list Selection :=
  match ss with
  | SNil | SRef _ => []
  | SCons s rest => all_selections s ++ all_selections_of rest
  end.

(** The selections that exist for the runtime only: the type tag and the
    discriminators of abstract types. *)
Definition is_metadata (s : Selection) : bool :=
  is_typename s || is_discriminator s.

Definition metadata_of (ss : Selections) : list Selection :=
  filter (fun s => is_metadata s = true) (all_selections_of ss).

Definition is_hex_digit (c : ascii) : bool :=
  let n := Ascii.nat_of_ascii c in
  (48 <=? n)%nat && (n <=? 57)%nat || (97 <=? n)%nat && (n <=? 102)%nat.

Fixpoint all_chars (f : ascii -> bool) (s : string) : bool :=
  match s with
  | EmptyString => true
  | String c s' => f c && all_chars f s'
  end.

(** A digest of 128 bits in lower-case hexadecimal. *)
Definition is_digest (s : string) : bool :=
  (String.length s =? 32)%nat && all_chars is_hex_digit s.

(** A request as it is issued: a binding with the values of its
    variables.  Its cache identity is the one in the parameters of the
    binding. *)
Record Request := {
  binding : Artifact;
  variable_values : record }.

Definition cache_identity (r : Request) : string :=
  RequestParameters.cacheID (params (node (binding r))).

(** A binding site of a text with the field and the argument it stands at. *)
Fixpoint gsel_sites (s : gsel) : list (string * string * string) :=
  match s with
  | GField _ n args sub =>
      flat_map (fun a => match a.2 with
                         | GVar v => [(n, a.1, v)]
                         | GConst _ => []
                         end) args
        ++ flat_map gsel_sites sub
  | GInline _ sub => flat_map gsel_sites sub
  | GSpread _ => []
  end.

Definition document_sites (d : document) : list (string * string * string) :=
  flat_map (fun g => flat_map gsel_sites (gdef_body g)) d.

(** The variables the arguments of a tree are bound to. *)
Definition tree_variables (ss : Selections) : list string :=
  flat_map (fun s => argument_variables (field_args s)) (field_nodes_of ss).

Fixpoint prop_keys (ps : props) : list string :=
  match ps with
  | PNil => []
  | PCons k _ _ rest => k :: prop_keys rest
  end.

(** The first field node of a tree with a given response key. *)
Definition find_field (k : string) (ss : Selections) : option Selection :=
  head (filter (fun s => field_key s = k) (field_nodes_of ss)).

Definition polymorphic_fields (ss : Selections) : list Selection :=
  filter (fun s => is_polymorphic s = true) (field_nodes_of ss).

(** The selections of a polymorphic field of an operation: the type tag,
    the abstract capability (the discriminator of the abstract type and the
    [id] it guarantees) and branches on concrete types, nothing else. *)
Definition declares_capability (f : Selection) : bool :=
  let sels := field_selections f in
  existsb is_typename sels && existsb is_discriminator sels
    && existsb is_id sels
    && forallb (fun s => is_typename s || is_discriminator s || is_id s
                         || is_branch s) sels.

(** The variables a tree uses, in order. *)
Fixpoint references (s : Selection) : list string :=
  match s with
  | LinkedField _ _ _ _ _ ss _ | InlineFragment ss _ _ => references_of ss
  | Ref v => [v]
  | _ => []
  end
with references_of (ss : Selections) : list string :=
  match ss with
  | SNil => []
  | SCons s rest => references s ++ references_of rest
  | SRef v => [v]
  end.

(** The scope of [SessionDetailsQuery] with the two uses of [v3] replaced by
    structural copies of the array it holds. *)
Definition scope_with_v3_copied : Arena :=
  [ ("v2", ESel SessionDetailsQuery.v2);
    ("v3", ESels SessionDetailsQuery.v3);
    ("v4", ESel (inline {[ "v3" := ESels SessionDetailsQuery.v3 ]}
                   SessionDetailsQuery.v4)) ].

Definition with_scope (a : Artifact) (sc : Arena) : Artifact :=
  {| variables := variables a; data := data a; vars := sc;
     node := node a; hash := hash a |}.

(** Two responses to [SessionDetailsQuery]: a project session, and a node of
    another type. *)
Definition three : json := JNum (Decimal (Pos (D3 Nil)) Nil).

Definition session_response : record :=
  {[ "session" := JObj {[ "__typename" := JStr "ProjectSession";
                          "__isNode" := JStr "ProjectSession";
                          "id" := JStr "UHJvamVjdFNlc3Npb246MQ==";
                          "numTraces" := three;
                          "tokenUsage" := JObj {[ "total" := three;
                                                  "completion" := three;
                                                  "prompt" := three ]} ]} ]}.

Definition other_response : record :=
  {[ "session" := JObj {[ "__typename" := JStr "Project";
                          "__isNode" := JStr "Project";
                          "id" := JStr "UHJvamVjdDox" ]} ]}.

(** A response whose [tokenUsage] omits [total]. *)
Definition response_without_total : record :=
  {[ "session" := JObj {[ "__typename" := JStr "ProjectSession";
                          "tokenUsage" := JObj {[ "completion" := three;
                                                  "prompt" := three ]} ]} ]}.

Definition branch_type (s : Selection) : option string :=
  match s with
  | InlineFragment _ t None => Some t
  | _ => None
  end.

(** A scope and a substitution agree when each variable means what reading
    its inlined entry gives. *)
Definition agree (rho : scope) (sigma : subst) : Prop :=
  forall v,
    match rho !! v, sigma !! v with
    | Some (DSel m), Some (ESel s) => forall o, m o = read ∅ s o
    | Some (DSels m), Some (ESels ss) => forall o, m o = reads ∅ ss o
    | None, None => True
    | _, _ => False
    end.

(** A value a linked field of the declared shape may have. *)
Definition null_or_object (ps : props) (v : json) : Prop :=
  v = JNull \/ exists o, v = JObj o /\ conforms_props ps o = true.

(** What a field is at its place: its path, its name in the schema and its
    arguments.  In a tree a literal argument is compared by its printed
    value, and a discriminator is the field [__typename] under its key. *)
Definition field_signature : Type :=
  path * string * list (string * gvalue).

#[global] Instance gvalue_eq_dec : EqDecision gvalue.
Proof. solve_decision. Defined.

Definition below_key (k : string) (f : field_signature) : field_signature :=
  (k :: f.1.1, f.1.2, f.2).

Fixpoint gsel_fields (d : document) (depth : nat) :
    gsel -> list field_signature :=
  fix go (s : gsel) : list field_signature :=
    match s with
    | GField a n args sub =>
        let k := response_key a n in
        ([k], n, args) :: map (below_key k) (flat_map go sub)
    | GInline _ sub => flat_map go sub
    | GSpread n =>
        match depth, find_fragment d n with
        | S depth', Some body => flat_map (gsel_fields d depth') body
        | _, _ => []
        end
    end.

Definition document_fields (d : document) : list field_signature :=
  flat_map (gsel_fields d (length d)) (default [] (operation_body d)).

Definition argument_value (a : Argument) : string * gvalue :=
  match a with
  | Literal n v => (n, GConst (default "" (print_scalar v)))
  | Variable_ n v => (n, GVar v)
  end.

Fixpoint selection_fields (s : Selection) : list field_signature :=
  match s with
  | ScalarField a ar n _ =>
      [([response_key a n], n, map argument_value (default [] ar))]
  | LinkedField a ar _ n _ ss _ =>
      let k := response_key a n in
      ([k], n, map argument_value (default [] ar))
        :: map (below_key k) (selections_fields ss)
  | InlineFragment ss _ _ => selections_fields ss
  | TypeDiscriminator k => [([k], "__typename", [])]
  | FragmentSpread _ _ | Ref _ => []
  end
with selections_fields (ss : Selections) : list field_signature :=
  match ss with
  | SNil | SRef _ => []
  | SCons s rest => selection_fields s ++ selections_fields rest
  end.

(** ** Scoping of the declarations

    The declarations of a module are evaluated in order; a use of a
    variable is meaningful when an earlier declaration gave it a value of
    the kind the place expects: a selection where an element of an array
    stands, an array where the value of [selections] stands. *)

Inductive EntryKind := ASelection | AnArray.

#[global] Instance EntryKind_eq_dec : EqDecision EntryKind.
Proof. solve_decision. Defined.

Definition kind_of (e : Entry) : EntryKind :=
  match e with ESel _ => ASelection | ESels _ => AnArray end.

Fixpoint uses_declared (d : gmap string EntryKind) (s : Selection) : bool :=
  match s with
  | LinkedField _ _ _ _ _ ss _ | InlineFragment ss _ _ => all_use_declared d ss
  | Ref v => bool_decide (d !! v = Some ASelection)
  | _ => true
  end
with all_use_declared (d : gmap string EntryKind) (ss : Selections) : bool :=
  match ss with
  | SNil => true
  | SCons s rest => uses_declared d s && all_use_declared d rest
  | SRef v => bool_decide (d !! v = Some AnArray)
  end.

Definition entry_uses_declared (d : gmap string EntryKind) (e : Entry) :
    bool :=
  match e with
  | ESel s => uses_declared d s
  | ESels ss => all_use_declared d ss
  end.

(** Every declaration of [a] uses only the declarations before it, and the
    tree [ss], which follows them, uses only declarations of [a]. *)
Fixpoint well_scoped_from (d : gmap string EntryKind) (a : Arena)
    (ss : Selections) : bool :=
  match a with
  | [] => all_use_declared d ss
  | (v, e) :: a' =>
      entry_uses_declared d e
      && well_scoped_from (<[ v := kind_of e ]> d) a' ss
  end.

Definition well_scoped (a : Arena) (ss : Selections) : bool :=
  well_scoped_from ∅ a ss.

Definition entry_references (e : Entry) : list string :=
  match e with
  | ESel s => references s
  | ESels ss => references_of ss
  end.

(** The values [sigma] gives to the declared variables hold no reference. *)
Definition closes (d : gmap string EntryKind) (sigma : subst) : Prop :=
  forall v k, d !! v = Some k ->
    exists e, sigma !! v = Some e /\ kind_of e = k /\ entry_references e = [].

(** *** What a module writes, and what it names

    The object and array literals a module writes out, a use of a variable
    being no literal; and the uses of variables, in the declarations and in
    the two trees. *)

Definition show_option (o : option string) : string :=
  match o with
  | Some s => "'" +:+ s +:+ "'"
  | None => "null"
  end.

Definition show_args (ar : option (list Argument)) : string :=
  match ar with
  | Some l => "[" +:+ join "," (map print_argument l) +:+ "]"
  | None => "null"
  end.

(** A selection written on one line; two selections are written alike only
    when they are the same. *)
Fixpoint show (s : Selection) : string :=
  match s with
  | ScalarField a ar n sk =>
      "Scalar(" +:+ show_option a +:+ "," +:+ show_args ar +:+ "," +:+ n
        +:+ "," +:+ show_option sk +:+ ")"
  | LinkedField a ar ct n p ss sk =>
      "Linked(" +:+ show_option a +:+ "," +:+ show_args ar +:+ ","
        +:+ show_option ct +:+ "," +:+ n +:+ ","
        +:+ (if p then "true" else "false") +:+ "," +:+ shows ss +:+ ","
        +:+ show_option sk +:+ ")"
  | InlineFragment ss t ak =>
      "Inline(" +:+ shows ss +:+ "," +:+ t +:+ "," +:+ show_option ak +:+ ")"
  | TypeDiscriminator ak => "Discriminator(" +:+ ak +:+ ")"
  | FragmentSpread ar n => "Spread(" +:+ show_args ar +:+ "," +:+ n +:+ ")"
  | Ref v => "(" +:+ v +:+ ")"
  end
with shows (ss : Selections) : string :=
  match ss with
  | SNil => "[]"
  | SCons s rest => show s +:+ ";" +:+ shows rest
  | SRef v => "(" +:+ v +:+ ")"
  end.

Definition show_entry (e : Entry) : string :=
  match e with
  | ESel s => show s
  | ESels ss => shows ss
  end.

Definition array_literal (ss : Selections) : list Entry :=
  match ss with
  | SCons _ _ => [ESels ss]
  | SNil | SRef _ => []
  end.

Fixpoint literals (s : Selection) : list Entry :=
  match s with
  | LinkedField _ _ _ _ _ ss _ | InlineFragment ss _ _ =>
      ESel s :: array_literal ss ++ literals_of ss
  | Ref _ => []
  | _ => [ESel s]
  end
with literals_of (ss : Selections) : list Entry :=
  match ss with
  | SNil | SRef _ => []
  | SCons s rest => literals s ++ literals_of rest
  end.

Definition entry_literals (e : Entry) : list Entry :=
  match e with
  | ESel s => literals s
  | ESels ss => array_literal ss ++ literals_of ss
  end.

Definition written (a : Artifact) : list Entry :=
  flat_map (fun d => entry_literals d.2) (vars a)
    ++ entry_literals (ESels (ReaderFragment.selections (fragment (node a))))
    ++ entry_literals
         (ESels (NormalizationOperation.selections (operation (node a)))).

Definition uses (a : Artifact) : list string :=
  flat_map (fun d => entry_references d.2) (vars a)
    ++ references_of (ReaderFragment.selections (fragment (node a)))
    ++ references_of (NormalizationOperation.selections (operation (node a))).

(** ** The structure of a type and of a tree

    What an exported type and a fragment tree have in common: which keys an
    object has, which of them may be missing, and whether the value under a
    key is a scalar, an object, a list, or the references to a fragment.
    Whether a value may be [null] is the schema's to say and is no part of
    the structure. *)

Inductive shape :=
| AScalar
| AnObject (fields : list (string * bool * shape))
| AList (elem : shape)
| FragmentRefsTo (name : string).

Fixpoint type_shape (t : tstype) : shape :=
  match t with
  | TUnion l TNull => type_shape l
  | TReadonlyArray e => AList (type_shape e)
  | TObject ps => AnObject (props_shape ps)
  | TFragmentRefs n => FragmentRefsTo n
  | _ => AScalar
  end
with props_shape (ps : props) : list (string * bool * shape) :=
  match ps with
  | PNil => []
  | PCons k optional t rest => (k, optional, type_shape t) :: props_shape rest
  end.

Fixpoint insert_by_key {A} (x : string * A) (l : list (string * A)) :
    list (string * A) :=
  match l with
  | [] => [x]
  | y :: l' =>
      if String.leb x.1 y.1 then x :: l else y :: insert_by_key x l'
  end.

Definition sort_by_key {A} (l : list (string * A)) : list (string * A) :=
  foldr insert_by_key [] l.

(** The fields a selection contributes to the object it is read from;
    [conditional] holds below a branch on a concrete type, where a field is
    there for some records and not for others. *)
Fixpoint selection_shape (conditional : bool) (s : Selection) :
    list (string * (bool * shape)) :=
  match s with
  | ScalarField a _ n _ => [(response_key a n, (conditional, AScalar))]
  | LinkedField a _ _ n plural ss _ =>
      let o := AnObject (map (fun f => (f.1, f.2.1, f.2.2))
                           (sort_by_key (selections_shape false ss))) in
      [(response_key a n, (conditional, if plural then AList o else o))]
  | InlineFragment ss _ _ => selections_shape true ss
  | FragmentSpread _ n => [(" $fragmentSpreads", (false, FragmentRefsTo n))]
  | TypeDiscriminator _ | Ref _ => []
  end
with selections_shape (conditional : bool) (ss : Selections) :
    list (string * (bool * shape)) :=
  match ss with
  | SNil | SRef _ => []
  | SCons s rest =>
      selection_shape conditional s ++ selections_shape conditional rest
  end.

Definition tree_shape (ss : Selections) : shape :=
  AnObject (map (fun f => (f.1, f.2.1, f.2.2))
              (sort_by_key (selections_shape false ss))).

(** ** A type that describes the views of a tree

    Beyond covering the tree, at every object the properties have distinct
    keys and the required ones are selected by the tree outside of any
    branch, so that a view cannot miss them. *)

Fixpoint props_list (ps : props) : list (string * bool * tstype) :=
  match ps with
  | PNil => []
  | PCons k optional t rest => (k, optional, t) :: props_list rest
  end.

Definition required_keys (ps : props) : list string :=
  omap (fun p : string * bool * tstype =>
          if p.1.2 then None else Some p.1.1) (props_list ps).

Definition selected_key (s : Selection) : option string :=
  match s with
  | ScalarField a _ n _ | LinkedField a _ _ n _ _ _ => Some (response_key a n)
  | _ => None
  end.

Definition selected_keys (ss : Selections) : list string :=
  omap selected_key (elements ss).

Definition selects_required (ps : props) (ss : Selections) : bool :=
  bool_decide (required_keys ps ⊆ selected_keys ss)
  && bool_decide (NoDup (prop_keys ps)).

Fixpoint describes (ps : props) (s : Selection) : bool :=
  match s with
  | LinkedField a _ _ n plural ss _ =>
      match lookup_prop ps (response_key a n) with
      | Some t =>
          match (if plural then array_shape t else object_shape t) with
          | Some ps' => describes_all ps' ss && selects_required ps' ss
          | None => false
          end
      | None => false
      end
  | InlineFragment ss _ _ => describes_all ps ss
  | ScalarField _ _ _ _ | TypeDiscriminator _ | FragmentSpread _ _ => true
  | Ref _ => false
  end
with describes_all (ps : props) (ss : Selections) : bool :=
  match ss with
  | SNil => true
  | SCons s rest => describes ps s && describes_all ps rest
  | SRef _ => false
  end.

Definition describes_view (ps : props) (ss : Selections) : bool :=
  describes_all ps ss && selects_required ps ss.

(** A property is satisfied by the value a record has under its key. *)
Definition prop_ok (optional : bool) (t : tstype) (v : option json) : bool :=
  match v with
  | Some x => conforms t x
  | None => optional
  end.

(** ** What the operation tree keeps for the fragment tree

    The response keys a selection can write into the view of the record it
    is read from: its own, or those of the branch it is. *)
Fixpoint level_keys (s : Selection) : list string :=
  match s with
  | ScalarField a _ n _ | LinkedField a _ _ n _ _ _ => [response_key a n]
  | InlineFragment ss _ _ => level_keys_of ss
  | _ => []
  end
with level_keys_of (ss : Selections) : list string :=
  match ss with
  | SNil | SRef _ => []
  | SCons s rest => level_keys s ++ level_keys_of rest
  end.

(** A scalar field, a linked field and a branch of an array of selections,
    looked up by response key or by concrete type. *)
Fixpoint has_scalar (k : string) (ss : Selections) : bool :=
  match ss with
  | SCons (ScalarField a _ n _) rest =>
      String.eqb k (response_key a n) || has_scalar k rest
  | SCons _ rest => has_scalar k rest
  | _ => false
  end.

Fixpoint find_linked (k : string) (plural : bool) (ss : Selections) :
    option Selections :=
  match ss with
  | SCons (LinkedField a _ _ n p ss' _) rest =>
      if String.eqb k (response_key a n) && Bool.eqb p plural
      then Some ss' else find_linked k plural rest
  | SCons _ rest => find_linked k plural rest
  | _ => None
  end.

Fixpoint find_branch (t : string) (ss : Selections) : option Selections :=
  match ss with
  | SCons (InlineFragment ss' t' None) rest =>
      if String.eqb t t' then Some ss' else find_branch t rest
  | SCons _ rest => find_branch t rest
  | _ => None
  end.

(** The selection [s] of a fragment tree reads nothing that the selections
    [cur] of the operation tree do not keep: a field is selected there under
    the same response key, a linked field with selections that keep those
    of [s], and distinct response keys; a branch on a concrete type is a
    branch there, and [tagged] says that the type tag is selected for the
    record, without which the branch could not be chosen. *)
Fixpoint keeps (tagged : bool) (cur : Selections) (s : Selection) : bool :=
  match s with
  | ScalarField a _ n _ => has_scalar (response_key a n) cur
  | LinkedField a _ _ n p ss _ =>
      match find_linked (response_key a n) p cur with
      | Some ss' =>
          bool_decide (NoDup (level_keys_of ss'))
          && keeps_all (has_scalar "__typename" ss') ss' ss
      | None => false
      end
  | InlineFragment ss t None =>
      tagged &&
      match find_branch t cur with
      | Some ss' => keeps_all tagged ss' ss
      | None => false
      end
  | InlineFragment _ _ (Some _) => false
  | TypeDiscriminator _ | FragmentSpread _ _ => true
  | Ref _ => false
  end
with keeps_all (tagged : bool) (cur : Selections) (ss : Selections) : bool :=
  match ss with
  | SNil => true
  | SCons s rest => keeps tagged cur s && keeps_all tagged cur rest
  | SRef _ => false
  end.

Definition retains (operation fragment : Selections) : bool :=
  bool_decide (NoDup (level_keys_of operation))
  && keeps_all (has_scalar "__typename" operation) operation fragment.

(** The arrays of selections that are read for the record [o]: the one the
    record is read through, and the branches on the type [o] reports. *)
Inductive region (o : record) (root : Selections) : Selections -> Prop :=
| region_root : region o root root
| region_branch (cur ss : Selections) (t : string) :
    region o root cur -> InlineFragment ss t None ∈ elements cur ->
    typename o = Some t -> region o root ss.

(** * Properties *)

(** A decidable statement about the artifacts is settled by evaluation. *)
Ltac by_compute := apply (bool_decide_unpack _); vm_compute; exact I.

(** A closed term is replaced by its value. *)
Ltac evaluate t :=
  let v := eval vm_compute in t in
  replace t with v by (vm_compute; reflexivity).

(** A statement about every binding is proved binding by binding. *)
Ltac each_binding :=
  unfold bindings; repeat match goal with |- Forall _ _ => constructor end.

(** ** Reading through references and reading inlined copies *)

Combined Scheme Selection_mutind from Selection_mut, Selections_mut.

Lemma bind_ext {A B} (m : outcome A) (k1 k2 : A -> outcome B) :
  (forall a, k1 a = k2 a) -> bind m k1 = bind m k2.
Proof. intros H. destruct m; simpl; auto. Qed.

Lemma read_items_ext (m1 m2 : meaning) :
  (forall o, m1 o = m2 o) ->
  forall items, read_items m1 items = read_items m2 items.
Proof.
  intros Hm. induction items as [|i items IH]; [reflexivity|].
  destruct i; simpl; try reflexivity.
  - rewrite IH. reflexivity.
  - rewrite Hm, IH. reflexivity.
Qed.

Lemma read_inline (rho : scope) (sigma : subst) :
  agree rho sigma ->
  (forall s o, read rho s o = read ∅ (inline sigma s) o) /\
  (forall ss o, reads rho ss o = reads ∅ (inlines sigma ss) o).
Proof.
  intros Hag. apply Selection_mutind; simpl.
  - reflexivity.
  - intros a ar ct n p ss IH sk o.
    destruct (o !! response_key a n) as [[| | | |items|o']|]; try reflexivity;
      destruct p; try reflexivity.
    + rewrite (read_items_ext _ _ IH). reflexivity.
    + rewrite IH. reflexivity.
  - intros ss IH t [k|] o.
    + destruct (o !! k); [apply IH | reflexivity].
    + destruct (typename o) as [t'|]; [|reflexivity].
      destruct (String.eqb t t'); [apply IH | reflexivity].
  - reflexivity.
  - reflexivity.
  - intros v o. specialize (Hag v).
    destruct (rho !! v) as [[m|m]|], (sigma !! v) as [[s|ss]|];
      try contradiction; simpl; rewrite ?lookup_empty; auto.
  - reflexivity.
  - intros s IHs rest IHrest o. rewrite IHs.
    apply bind_ext. intros v. rewrite IHrest. reflexivity.
  - intros v o. specialize (Hag v).
    destruct (rho !! v) as [[m|m]|], (sigma !! v) as [[s|ss]|];
      try contradiction; simpl; rewrite ?lookup_empty; auto.
Qed.

Lemma agree_empty : agree ∅ ∅.
Proof. intros v. rewrite !lookup_empty. exact I. Qed.

Lemma agree_insert (rho : scope) (sigma : subst) (v : string) (e : Entry) :
  agree rho sigma ->
  agree (<[ v := denote rho e ]> rho) (<[ v := inline_entry sigma e ]> sigma).
Proof.
  intros Hag w. destruct (decide (v = w)) as [->|Hne].
  - rewrite !lookup_insert_eq.
    destruct e as [s|ss]; simpl; intros o; apply (read_inline _ _ Hag).
  - rewrite !lookup_insert_ne by done. apply Hag.
Qed.

Lemma agree_from (a : Arena) :
  forall rho sigma, agree rho sigma ->
    agree (scope_from rho a) (close_from sigma a).
Proof.
  induction a as [|[v e] a IH]; intros rho sigma Hag; simpl; [exact Hag|].
  apply IH, agree_insert, Hag.
Qed.

(** Following the references of a scope reads what the inlined tree reads. *)
Lemma reads_inlined (a : Arena) (ss : Selections) (o : record) :
  reads (scope_of a) ss o = reads ∅ (inlines (close a) ss) o.
Proof.
  apply (read_inline (scope_of a) (close a)).
  apply agree_from, agree_empty.
Qed.

(** ** A response of the declared shape can be projected *)

Lemma lookup_prop_conforms (ps : props) (o : record) (k : string)
    (t : tstype) (v : json) :
  conforms_props ps o = true -> lookup_prop ps k = Some t ->
  o !! k = Some v -> conforms t v = true.
Proof.
  induction ps as [|k' opt t' rest IH]; simpl; [discriminate|].
  intros Hc Hl Hv. apply andb_true_iff in Hc as [Hhere Hrest].
  destruct (String.eqb_spec k k') as [->|Hne].
  - injection Hl as <-. rewrite Hv in Hhere. exact Hhere.
  - auto.
Qed.

Lemma object_shape_conforms (t : tstype) (ps : props) (v : json) :
  object_shape t = Some ps -> conforms t v = true -> null_or_object ps v.
Proof.
  destruct t as [| | | |l r| |ps'| |]; simpl; try discriminate.
  - destruct l as [| | | | | |ps'| |]; try discriminate.
    destruct r; try discriminate.
    intros [= <-] Hc. apply orb_true_iff in Hc as [Hc|Hc].
    + destruct v; try discriminate. right. eauto.
    + destruct v; try discriminate. left. reflexivity.
  - intros [= <-] Hc. destruct v; try discriminate. right. eauto.
Qed.

Lemma forallb_object_shape (e : tstype) (ps : props) (items : list json) :
  object_shape e = Some ps -> forallb (conforms e) items = true ->
  Forall (null_or_object ps) items.
Proof.
  intros He Hall. apply Forall_forall. intros i Hi.
  apply (object_shape_conforms e); [exact He|].
  rewrite forallb_forall in Hall. apply Hall.
  apply list_elem_of_In. exact Hi.
Qed.

Lemma array_shape_conforms (t : tstype) (ps : props) (v : json) :
  array_shape t = Some ps -> conforms t v = true ->
  v = JNull \/ exists items, v = JArr items /\ Forall (null_or_object ps) items.
Proof.
  destruct t as [| | | |l r|e| | |]; simpl; try discriminate.
  - destruct l as [| | | | |e| | |]; try discriminate.
    destruct r; try discriminate.
    intros He Hc. apply orb_true_iff in Hc as [Hc|Hc].
    + destruct v; try discriminate. right.
      eauto using forallb_object_shape.
    + destruct v; try discriminate. left. reflexivity.
  - intros He Hc. destruct v; try discriminate. right.
    eauto using forallb_object_shape.
Qed.

Lemma read_items_total (m : meaning) (ps : props) (items : list json) :
  (forall o, conforms_props ps o = true -> exists v, m o = Done v) ->
  Forall (null_or_object ps) items ->
  exists vs, read_items m items = Done vs.
Proof.
  intros Hm. induction 1 as [|i items Hi _ [vs IH]]; simpl; [eauto|].
  destruct Hi as [->|(o & -> & Ho)].
  - rewrite IH. simpl. eauto.
  - destruct (Hm o Ho) as [v ->]. rewrite IH. simpl. eauto.
Qed.

Lemma read_total :
  (forall s ps o, covers ps s = true -> conforms_props ps o = true ->
     exists v, read ∅ s o = Done v) /\
  (forall ss ps o, covers_all ps ss = true -> conforms_props ps o = true ->
     exists v, reads ∅ ss o = Done v).
Proof.
  apply Selection_mutind; simpl.
  - intros a ar n sk ps o _ _. destruct (o !! response_key a n); eauto.
  - intros a ar ct n p ss IH sk ps o Hcov Hc.
    destruct (lookup_prop ps (response_key a n)) as [t|] eqn:Ht;
      [|discriminate].
    destruct (o !! response_key a n) as [v|] eqn:Hv; [|destruct p; eauto].
    pose proof (lookup_prop_conforms _ _ _ _ _ Hc Ht Hv) as Hcv.
    destruct p.
    + destruct (array_shape t) as [ps'|] eqn:Hs; [|discriminate].
      destruct (array_shape_conforms _ _ _ Hs Hcv) as [->|(items & -> & Hall)];
        [eauto|].
      destruct (read_items_total (reads ∅ ss) ps' items) as [vs ->];
        simpl; eauto.
    + destruct (object_shape t) as [ps'|] eqn:Hs; [|discriminate].
      destruct (object_shape_conforms _ _ _ Hs Hcv) as [->|(o' & -> & Ho')];
        [eauto|].
      destruct (IH ps' o' Hcov Ho') as [v ->]. simpl. eauto.
  - intros ss IH t [k|] ps o Hcov Hc.
    + destruct (o !! k); eauto.
    + destruct (typename o) as [t'|]; [|eauto].
      destruct (String.eqb t t'); eauto.
  - eauto.
  - eauto.
  - discriminate.
  - eauto.
  - intros s IHs rest IHrest ps o Hcov Hc.
    apply andb_true_iff in Hcov as [H1 H2].
    destruct (IHs ps o H1 Hc) as [v ->].
    destruct (IHrest ps o H2 Hc) as [w ->]. simpl. eauto.
  - discriminate.
Qed.

(** A view holds only keys of the record it was read from. *)
Lemma view_keys :
  (forall s o v k, read ∅ s o = Done v -> o !! k = None -> v !! k = None) /\
  (forall ss o v k, reads ∅ ss o = Done v -> o !! k = None -> v !! k = None).
Proof.
  apply Selection_mutind; simpl.
  - intros a ar n sk o v k H Hk.
    destruct (o !! response_key a n) eqn:Hv; injection H as <-.
    + apply lookup_singleton_None. congruence.
    + apply lookup_empty.
  - intros a ar ct n p ss IH sk o v k H Hk.
    assert (forall x, v = {[ response_key a n := x ]} ->
                      is_Some (o !! response_key a n) -> v !! k = None) as Hone.
    { intros x -> [y Hy]. apply lookup_singleton_None. congruence. }
    destruct (o !! response_key a n) as [[| | | |items|o']|] eqn:Hv;
      destruct p; simpl in H; try discriminate;
      try (injection H as <-; first [apply lookup_empty | eauto]).
    + destruct (read_items (reads ∅ ss) items); simpl in H; [|discriminate].
      injection H as <-. eauto.
    + destruct (reads ∅ ss o'); simpl in H; [|discriminate].
      injection H as <-. eauto.
  - intros ss IH t [k'|] o v k H Hk.
    + destruct (o !! k'); [eauto|]. injection H as <-. apply lookup_empty.
    + destruct (typename o) as [t'|];
        [destruct (String.eqb t t')|]; eauto;
        injection H as <-; apply lookup_empty.
  - intros ak o v k [= <-] _. apply lookup_empty.
  - intros ar n o v k [= <-] _. apply lookup_empty.
  - intros x o v k H. rewrite lookup_empty in H. discriminate.
  - intros o v k [= <-] _. apply lookup_empty.
  - intros s IHs rest IHrest o v k H Hk.
    destruct (read ∅ s o) as [v1|] eqn:H1; simpl in H; [|discriminate].
    destruct (reads ∅ rest o) as [v2|] eqn:H2; simpl in H; [|discriminate].
    injection H as <-. apply lookup_union_None. eauto.
  - intros x o v k H. rewrite lookup_empty in H. discriminate.
Qed.

(** ** The paths of the response shape and of the query text *)

(** C1 as stated fails: the text of [SessionDetailsQuery] declares
    [session.__typename], [session.__isNode] and [session.id], and the
    exported [SessionDetailsQuery$data] has none of the three. *)
Lemma response_shape_misses_text_paths :
  exists tp,
    text_paths (query_text SessionDetailsQuery.artifact) = Some tp /\
    ["session"; "__typename"] ∈ tp /\
    ["session"; "__isNode"] ∈ tp /\
    ["session"; "id"] ∈ tp /\
    (["session"; "__typename"] ∉ type_paths (data SessionDetailsQuery.artifact)) /\
    (["session"; "__isNode"] ∉ type_paths (data SessionDetailsQuery.artifact)) /\
    (["session"; "id"] ∉ type_paths (data SessionDetailsQuery.artifact)).
Proof.
  eexists. split; [vm_compute; reflexivity|].
  repeat apply conj; by_compute.
Qed.

(** C1, amended: for every binding the paths of the response shape are
    exactly the paths of the fragment tree and all of them are declared in
    the query text; the paths the text declares are exactly those of the
    operation tree.  For [SessionDetailsQuery] the text declares, besides
    the paths of the response shape, exactly [session.__typename],
    [session.__isNode] and [session.id]. *)
Theorem response_shape_paths :
  Forall (fun a =>
    exists tp,
      text_paths (query_text a) = Some tp /\
      same_paths (type_paths (data a)) (selections_paths (fragment_tree a)) /\
      type_paths (data a) ⊆ tp /\
      same_paths tp (selections_paths (operation_tree a))) bindings /\
  exists tp,
    text_paths (query_text SessionDetailsQuery.artifact) = Some tp /\
    same_paths tp
      (type_paths (data SessionDetailsQuery.artifact) ++
       [ ["session"; "__typename"]; ["session"; "__isNode"];
         ["session"; "id"] ]).
Proof.
  split.
  - each_binding;
      (eexists; split; [vm_compute; reflexivity|]);
      repeat apply conj; by_compute.
  - eexists. split; [vm_compute; reflexivity|]. by_compute.
Qed.

(** The text and the operation tree of a binding select the same fields:
    at the same paths, the same fields of the schema with the same
    arguments. *)
Lemma text_matches_operation_tree :
  Forall (fun a =>
    exists d,
      parse (query_text a) = Some d /\
      document_fields d ⊆ selections_fields (operation_tree a) /\
      selections_fields (operation_tree a) ⊆ document_fields d) bindings.
Proof.
  each_binding; (eexists; split; [vm_compute; reflexivity|]);
    split; by_compute.
Qed.

(** ** Cache identity *)

(** C2: over the generated bindings the cache identity is a function of the
    query text alone, and an injective one: two requests have the same
    identity exactly when their bindings have the same text, whatever the
    values of their variables; the two bindings of the repository have
    different texts and different identities, each a digest of 128 bits. *)
Theorem cache_identity_of_text :
  Forall (fun a1 => Forall (fun a2 =>
    forall v1 v2 : record,
      query_text a1 = query_text a2 <->
      cache_identity {| binding := a1; variable_values := v1 |} =
      cache_identity {| binding := a2; variable_values := v2 |})
    bindings) bindings /\
  query_text SessionDetailsQuery.artifact
    <> query_text ViewerContextRefetchQuery.artifact /\
  cacheID SessionDetailsQuery.artifact
    <> cacheID ViewerContextRefetchQuery.artifact /\
  Forall (fun a => is_digest (cacheID a) = true) bindings.
Proof.
  assert (query_text SessionDetailsQuery.artifact
            <> query_text ViewerContextRefetchQuery.artifact) as Htext
    by (intros H; apply (f_equal String.length) in H; vm_compute in H;
        discriminate).
  assert (cacheID SessionDetailsQuery.artifact
            <> cacheID ViewerContextRefetchQuery.artifact) as Hid
    by (vm_compute; discriminate).
  repeat apply conj; [|exact Htext|exact Hid|each_binding; reflexivity].
  each_binding; each_binding; intros v1 v2; split; intros H;
    first [ reflexivity
          | exfalso; apply Htext; exact H
          | exfalso; apply Htext; symmetry; exact H
          | exfalso; apply Hid; exact H
          | exfalso; apply Hid; symmetry; exact H ].
Qed.

(** The two identities are the MD5 digests of the two texts: the identity is
    computed from the text and from nothing else. *)
Lemma cacheID_is_digest_of_text :
  MD5.hex_digest "" = "d41d8cd98f00b204e9800998ecf8427e" /\
  MD5.hex_digest "abc" = "900150983cd24fb0d6963f7d28e17f72" /\
  Forall (fun a => cacheID a = MD5.hex_digest (query_text a)) bindings.
Proof.
  repeat apply conj; [vm_compute; reflexivity..|].
  each_binding; vm_compute; reflexivity.
Qed.

(** ** Variables *)

(** C5: in every binding the variables of [argumentDefinitions] are the
    variables the header of the text declares, each once; each of them is
    bound at exactly one place of the text, and no other variable is bound
    there; the trees are bound to the same variables.  In [SessionDetailsQuery] the one
    place is the argument [id] of the field [node]. *)
Theorem variables_bound_once :
  Forall (fun a =>
    exists d,
      parse (query_text a) = Some d /\
      document_declared d = declared_variables a /\
      NoDup (declared_variables a) /\
      Forall (fun v => count_occ String.string_dec (document_binding_sites d) v = 1)
        (declared_variables a) /\
      document_binding_sites d ⊆ declared_variables a /\
      tree_variables (operation_tree a) = document_binding_sites d) bindings /\
  exists d,
    parse (query_text SessionDetailsQuery.artifact) = Some d /\
    declared_variables SessionDetailsQuery.artifact = ["id"] /\
    document_sites d = [("node", "id", "id")].
Proof.
  split.
  - each_binding;
      (eexists; split; [vm_compute; reflexivity|]);
      repeat apply conj; try reflexivity; by_compute.
  - eexists. split; [vm_compute; reflexivity|]. split; reflexivity.
Qed.

(** ** What a binding exposes *)

(** C6: every binding holds a text that parses as the query named in its
    parameters, a cache identity, the variables (the same definitions in
    both trees, with the names of the exported variables type) and the two
    trees; its fragment tree holds no type tag and no discriminator.  The
    operation tree of [SessionDetailsQuery] holds both: [__typename] and the
    discriminator [__isNode]. *)
Theorem binding_exposes :
  Forall (fun a =>
    (exists vds body rest,
       parse (query_text a) =
         Some (GOperation query (RequestParameters.name (params (node a)))
                 vds body :: rest)) /\
    is_digest (cacheID a) = true /\
    ReaderFragment.argumentDefinitions (fragment (node a)) =
      NormalizationOperation.argumentDefinitions (operation (node a)) /\
    declared_variables a = prop_keys (props_of (variables a)) /\
    ReaderFragment.name (fragment (node a)) =
      NormalizationOperation.name (operation (node a)) /\
    metadata_of (fragment_tree a) = []) bindings /\
  metadata_of (operation_tree SessionDetailsQuery.artifact) =
    [ ScalarField None None "__typename" None; TypeDiscriminator "__isNode" ] /\
  metadata_of (operation_tree ViewerContextRefetchQuery.artifact) = [].
Proof.
  split; [|split; reflexivity].
  each_binding; repeat apply conj; try reflexivity;
    do 3 eexists; vm_compute; reflexivity.
Qed.

(** ** Storage keys *)

Lemma static_storage_key_some (name : string) (ar : option (list Argument)) :
  is_Some (static_storage_key name ar) <->
  exists x l, ar = Some (x :: l) /\ forallb is_literal (x :: l) = true.
Proof.
  split.
  - intros [k Hk]. destruct ar as [[|x l]|]; try discriminate.
    unfold static_storage_key in Hk.
    destruct (forallb is_literal (x :: l)) eqn:Hl; [eauto|discriminate].
  - intros (x & l & -> & Hl). unfold static_storage_key. rewrite Hl. eauto.
Qed.

(** C10: every field node of both trees of both bindings carries the
    storage key that can be computed from its name and its arguments: the
    name with the bracketed arguments when there are arguments and all are
    literals, and [null] otherwise (no arguments, or a variable among them).
    [latencyP50] carries [traceLatencyMsQuantile(probability:0.5)]; the
    field [node], bound to [$id], carries [null]. *)
Theorem storage_key_of_literal_arguments :
  Forall (fun a =>
    Forall (fun f =>
      field_storageKey f = static_storage_key (field_name f) (field_args f))
      (all_field_nodes a)) bindings /\
  (forall name ar,
     is_Some (static_storage_key name ar) <->
     exists x l, ar = Some (x :: l) /\ forallb is_literal (x :: l) = true) /\
  find_field "latencyP50" (operation_tree SessionDetailsQuery.artifact) =
    Some (ScalarField (Some "latencyP50")
            (Some [Literal "probability" zero_point_five])
            "traceLatencyMsQuantile"
            (Some "traceLatencyMsQuantile(probability:0.5)")) /\
  format_storage_key "traceLatencyMsQuantile"
    [Literal "probability" zero_point_five] =
    "traceLatencyMsQuantile(probability:0.5)" /\
  (field_args <$> find_field "session" (operation_tree SessionDetailsQuery.artifact))
    = Some (Some [Variable_ "id" "id"]) /\
  (field_storageKey <$>
     find_field "session" (operation_tree SessionDetailsQuery.artifact))
    = Some None.
Proof.
  repeat apply conj; try reflexivity.
  - each_binding; by_compute.
  - apply static_storage_key_some.
Qed.

(** ** Shared subtrees *)

(** [v3] is used twice in [v4]; the copied form uses it nowhere. *)
Example v3_is_shared :
  references SessionDetailsQuery.v4 = ["v2"; "v2"; "v3"; "v3"] /\
  (match lookup 2%nat scope_with_v3_copied with
   | Some (_, ESel s) => references s
   | _ => []
   end) = ["v2"; "v2"].
Proof. split; reflexivity. Qed.

(** C7: two forms of a tree that inline to the same tree (the one reached
    from the other by replacing uses of a variable with structural copies of
    what it holds) give, for every response, the same outcome of the
    projection: the same view, or the same failure. *)
Theorem shared_subtree_transparent (a a' : Arena) (ss ss' : Selections) :
  inlines (close a) ss = inlines (close a') ss' ->
  forall response : record,
    reads (scope_of a) ss response = reads (scope_of a') ss' response.
Proof.
  intros H response. rewrite !reads_inlined, H. reflexivity.
Qed.

(** The fragment tree of [SessionDetailsQuery] with [v3] copied in place of
    its two uses projects every response as the original does. *)
Lemma shared_subtree_transparent_v3 :
  inlines (close (vars SessionDetailsQuery.artifact))
    (ReaderFragment.selections (fragment (node SessionDetailsQuery.artifact)))
  = inlines (close scope_with_v3_copied)
      (ReaderFragment.selections (fragment (node SessionDetailsQuery.artifact)))
  /\
  forall response : record,
    project SessionDetailsQuery.artifact response =
    project (with_scope SessionDetailsQuery.artifact scope_with_v3_copied)
      response.
Proof.
  split; [reflexivity|].
  exact (shared_subtree_transparent
           (vars SessionDetailsQuery.artifact) scope_with_v3_copied
           (ReaderFragment.selections
              (fragment (node SessionDetailsQuery.artifact)))
           (ReaderFragment.selections
              (fragment (node SessionDetailsQuery.artifact)))
           eq_refl).
Defined.

(** ** The branch on [ProjectSession] *)

Lemma project_total (a : Artifact) (response : record) :
  covers_all (data_props a) (fragment_tree a) = true ->
  conforms (TObject (data_props a)) (JObj response) = true ->
  exists view, project a response = Done view.
Proof.
  intros Hcov Hc. unfold project. rewrite reads_inlined.
  exact (proj2 read_total _ _ _ Hcov Hc).
Qed.

(** Every response of the declared shape is projected, in both bindings. *)
Lemma declared_shape_is_projected :
  Forall (fun a =>
    forall response : record,
      conforms (data a) (JObj response) = true ->
      exists view, project a response = Done view) bindings.
Proof.
  each_binding; intros response Hc;
    (apply project_total; [reflexivity | exact Hc]).
Qed.

Example project_session_response :
  project SessionDetailsQuery.artifact session_response =
    Done {[ "session" :=
              JObj {[ "numTraces" := three;
                      "tokenUsage" := JObj {[ "total" := three;
                                              "completion" := three;
                                              "prompt" := three ]} ]} ]}.
Proof. vm_compute. reflexivity. Qed.

Example project_other_response :
  project SessionDetailsQuery.artifact other_response =
    Done {[ "session" := JObj ∅ ]} /\
  project_operation SessionDetailsQuery.artifact other_response =
    Done {[ "session" := JObj {[ "__typename" := JStr "Project";
                                 "id" := JStr "UHJvamVjdDox" ]} ]}.
Proof. split; vm_compute; reflexivity. Qed.

(** C3: for a response whose [session] is the record [s],
    - if the response has the shape of [SessionDetailsQuery$data], the
      projection through the fragment tree gives a view;
    - if [s] reports the type [ProjectSession], the session of every view
      the projection gives has [numTraces] as [s] has it;
    - if [s] reports another type (or none), the projection gives the view
      whose session is empty: [numTraces] is absent, and nothing fails. *)
Theorem numTraces_follows_type_tag (response s : record) :
  response !! "session" = Some (JObj s) ->
  (conforms (data SessionDetailsQuery.artifact) (JObj response) = true ->
   exists view, project SessionDetailsQuery.artifact response = Done view) /\
  (typename s = Some "ProjectSession" ->
   forall view, project SessionDetailsQuery.artifact response = Done view ->
   exists sv,
     view !! "session" = Some (JObj sv) /\
     sv !! "numTraces" = s !! "numTraces") /\
  (typename s <> Some "ProjectSession" ->
   project SessionDetailsQuery.artifact response =
     Done {[ "session" := JObj ∅ ]}).
Proof.
  intros Hs. split; [|split].
  - intros Hc.
    apply (project_total SessionDetailsQuery.artifact response);
      [reflexivity | exact Hc].
  - intros Ht view. unfold project. rewrite reads_inlined.
    evaluate (inlines (close (vars SessionDetailsQuery.artifact))
                (ReaderFragment.selections
                   (fragment (node SessionDetailsQuery.artifact)))).
    match goal with
    | |- context [InlineFragment (SCons _ ?rest) _ _] =>
        remember rest as others eqn:Hothers
    end.
    simpl. unfold response_key. simpl. rewrite Hs. simpl. rewrite Ht. simpl.
    destruct (reads ∅ others s) as [w|why] eqn:Hw.
    + destruct (s !! "numTraces") as [n|] eqn:Hn; simpl;
        intros [= <-]; eexists;
        (split; [apply lookup_union_Some_l, lookup_singleton_eq|]).
      * apply lookup_union_Some_l, lookup_union_Some_l, lookup_singleton_eq.
      * apply lookup_union_None. split; [|apply lookup_empty].
        apply lookup_union_None. split; [apply lookup_empty|].
        exact (proj2 view_keys _ _ _ _ Hw Hn).
    + destruct (s !! "numTraces"); simpl; discriminate.
  - intros Ht. unfold project. rewrite reads_inlined.
    evaluate (inlines (close (vars SessionDetailsQuery.artifact))
                (ReaderFragment.selections
                   (fragment (node SessionDetailsQuery.artifact)))).
    match goal with
    | |- context [InlineFragment ?sels _ _] =>
        remember sels as branch eqn:Hbranch
    end.
    simpl. unfold response_key. simpl. rewrite Hs. simpl.
    assert (forall X : outcome record,
              match typename s with
              | Some t' => if String.eqb "ProjectSession" t' then X else Done ∅
              | None => Done ∅
              end = Done ∅) as Hskip.
    { intros X. destruct (typename s) as [t'|]; [|reflexivity].
      destruct (String.eqb_spec "ProjectSession" t') as [<-|]; [|reflexivity].
      contradiction. }
    rewrite Hskip. simpl.
    rewrite !(right_id_L ∅ (∪)). reflexivity.
Qed.

(** [session_response] reports [ProjectSession]: its view shows the three
    traces. *)
Lemma numTraces_follows_type_tag_session :
  session_response !! "session" =
    Some (JObj {[ "__typename" := JStr "ProjectSession";
                  "__isNode" := JStr "ProjectSession";
                  "id" := JStr "UHJvamVjdFNlc3Npb246MQ==";
                  "numTraces" := three;
                  "tokenUsage" := JObj {[ "total" := three;
                                          "completion" := three;
                                          "prompt" := three ]} ]}) /\
  exists view sv,
    project SessionDetailsQuery.artifact session_response = Done view /\
    view !! "session" = Some (JObj sv) /\ sv !! "numTraces" = Some three.
Proof.
  split; [reflexivity|].
  destruct (numTraces_follows_type_tag session_response _ eq_refl)
    as (Htotal & Hmatch & _).
  destruct (Htotal eq_refl) as [view Hview].
  destruct (Hmatch eq_refl view Hview) as (sv & Hsv & Hn).
  exists view, sv. auto.
Defined.

(** ** Validation against the shape of the response *)

Lemma conforms_props_split (k : string) (ps : props) (o : record) :
  conforms_props ps o =
  conforms_props (keep_prop k ps) o && conforms_props (remove_prop k ps) o.
Proof.
  induction ps as [|k' opt t rest IH]; simpl; [reflexivity|].
  destruct (String.eqb k k'); simpl; rewrite IH.
  - rewrite andb_assoc. reflexivity.
  - rewrite !andb_assoc. f_equal. apply andb_comm.
Qed.

(** Conformance of a response with a [tokenUsage], split into the property
    [total], the other properties of [tokenUsage] and the other properties
    of [session]. *)
Lemma conforms_tokenUsage (response s : record) (tu : json) :
  response !! "session" = Some (JObj s) ->
  s !! "tokenUsage" = Some tu ->
  conforms (data SessionDetailsQuery.artifact) (JObj response) =
    match get "total" tu with Some (JNum _) => true | _ => false end
    && conforms
         (TObject (remove_prop "total"
            (props_of (type_at ["session"; "tokenUsage"]
               (data SessionDetailsQuery.artifact))))) tu
    && conforms_props
         (remove_prop "tokenUsage"
            (props_of (type_at ["session"]
               (data SessionDetailsQuery.artifact)))) s.
Proof.
  intros Hs Htu.
  change (conforms (data SessionDetailsQuery.artifact) (JObj response))
    with (match response !! "session" with
          | Some v =>
              conforms (type_at ["session"]
                          (data SessionDetailsQuery.artifact)) v
          | None => false
          end && true).
  rewrite Hs, andb_true_r.
  change (conforms (type_at ["session"] (data SessionDetailsQuery.artifact))
            (JObj s))
    with (conforms_props
            (props_of (type_at ["session"]
               (data SessionDetailsQuery.artifact))) s).
  rewrite (conforms_props_split "tokenUsage"). f_equal.
  change (conforms_props
            (keep_prop "tokenUsage"
               (props_of (type_at ["session"]
                  (data SessionDetailsQuery.artifact)))) s)
    with (match s !! "tokenUsage" with
          | Some v =>
              conforms (type_at ["session"; "tokenUsage"]
                          (data SessionDetailsQuery.artifact)) v
          | None => true
          end && true).
  rewrite Htu, andb_true_r.
  destruct tu as [| | | | |o]; try reflexivity.
  change (conforms (type_at ["session"; "tokenUsage"]
                      (data SessionDetailsQuery.artifact)) (JObj o))
    with (conforms_props
            (props_of (type_at ["session"; "tokenUsage"]
               (data SessionDetailsQuery.artifact))) o).
  rewrite (conforms_props_split "total"). f_equal.
  simpl. destruct (o !! "total") as [[]|]; reflexivity.
Qed.

Example rejects_response_without_total :
  conforms (data SessionDetailsQuery.artifact) (JObj response_without_total)
    = false.
Proof. reflexivity. Qed.

(** C4: a response that contains [session.tokenUsage] does not conform to
    [SessionDetailsQuery$data] when the [tokenUsage] omits [total]; and when
    the other properties of the [tokenUsage] and of the [session] are as
    declared, it conforms exactly when [total] is there and is a number. *)
Theorem tokenUsage_total_required (response : record) (tu : json) :
  get_path ["session"; "tokenUsage"] (JObj response) = Some tu ->
  (get "total" tu = None ->
   conforms (data SessionDetailsQuery.artifact) (JObj response) = false) /\
  (forall s : record,
     response !! "session" = Some (JObj s) ->
     conforms
       (TObject (remove_prop "total"
          (props_of (type_at ["session"; "tokenUsage"]
             (data SessionDetailsQuery.artifact))))) tu = true ->
     conforms_props
       (remove_prop "tokenUsage"
          (props_of (type_at ["session"]
             (data SessionDetailsQuery.artifact)))) s = true ->
     (conforms (data SessionDetailsQuery.artifact) (JObj response) = true <->
      exists n, get "total" tu = Some (JNum n))).
Proof.
  intros Hp. simpl in Hp.
  destruct (response !! "session") as [v|] eqn:Hs; [|discriminate].
  destruct (get "tokenUsage" v) as [tu'|] eqn:Htu; [|discriminate].
  injection Hp as ->.
  destruct v as [| | | | |s]; try discriminate. simpl in Htu.
  rewrite (conforms_tokenUsage response s tu Hs Htu). split.
  - intros ->. reflexivity.
  - intros s' [= <-] -> ->. rewrite !andb_true_r.
    destruct (get "total" tu) as [[| |d| | |]|]; simpl; split; intros H;
      try discriminate H;
      try (match type of H with ex _ => destruct H as [? H] end;
           discriminate H);
      try reflexivity.
    exists d. reflexivity.
Qed.

(** [session_response] contains [session.tokenUsage] with a [total] and
    conforms. *)
Lemma tokenUsage_total_required_session :
  get_path ["session"; "tokenUsage"] (JObj session_response) =
    Some (JObj {[ "total" := three; "completion" := three;
                  "prompt" := three ]}) /\
  conforms (data SessionDetailsQuery.artifact) (JObj session_response) = true.
Proof.
  split; [reflexivity|].
  apply (proj2 (tokenUsage_total_required session_response
                  (JObj {[ "total" := three; "completion" := three;
                           "prompt" := three ]}) eq_refl)
           _ eq_refl eq_refl eq_refl).
  exists (Decimal (Pos (D3 Nil)) Nil). reflexivity.
Defined.

(** ** Polymorphic fields *)

(** C8: in every binding each polymorphic field of the operation tree
    selects the type tag [__typename], the abstract capability (a
    discriminator and [id]) and, besides these, only branches on concrete
    types with selections of their own; the same field in the fragment tree
    (same key, same arguments) selects exactly those branches.  The one
    polymorphic field is [session] of [SessionDetailsQuery], with the
    discriminator [__isNode] and the one branch on [ProjectSession].  A
    branch is read when the type tag of the record is its type, and
    contributes nothing otherwise. *)
Theorem polymorphic_field_representation :
  Forall (fun a =>
    Forall (fun f => declares_capability f = true)
      (polymorphic_fields (operation_tree a)) /\
    Forall (fun f =>
      exists f',
        f' ∈ polymorphic_fields (operation_tree a) /\
        field_key f = field_key f' /\
        field_args f = field_args f' /\
        field_selections f = branches f')
      (polymorphic_fields (fragment_tree a))) bindings /\
  map field_key (polymorphic_fields (operation_tree SessionDetailsQuery.artifact))
    = ["session"] /\
  (filter (fun s => is_discriminator s = true) ∘ field_selections <$>
     find_field "session" (operation_tree SessionDetailsQuery.artifact))
    = Some [TypeDiscriminator "__isNode"] /\
  (omap branch_type ∘ field_selections <$>
     find_field "session" (operation_tree SessionDetailsQuery.artifact))
    = Some ["ProjectSession"] /\
  polymorphic_fields (operation_tree ViewerContextRefetchQuery.artifact) = [] /\
  (forall (ss : Selections) (t : string) (o : record),
     read ∅ (InlineFragment ss t None) o =
       if bool_decide (typename o = Some t) then reads ∅ ss o else Done ∅).
Proof.
  repeat apply conj; try reflexivity.
  - each_binding; (split; [by_compute|]).
    + evaluate (polymorphic_fields (fragment_tree SessionDetailsQuery.artifact)).
      evaluate (polymorphic_fields (operation_tree SessionDetailsQuery.artifact)).
      repeat constructor.
      match goal with |- context [_ ∈ [?f]] => exists f end.
      split; [apply list_elem_of_here|].
      repeat split; vm_compute; reflexivity.
    + evaluate
        (polymorphic_fields (fragment_tree ViewerContextRefetchQuery.artifact)).
      constructor.
  - intros ss t o. simpl. destruct (typename o) as [t'|].
    + destruct (String.eqb_spec t t') as [->|Hne].
      * rewrite bool_decide_eq_true_2; reflexivity.
      * rewrite bool_decide_eq_false_2; [reflexivity|congruence].
    + rewrite bool_decide_eq_false_2; [reflexivity|discriminate].
Qed.

(** ** The container build *)

Import Dockerfile.

(** *** Following a path *)

Lemma walk_nil (b : nat) (f : fs) (cwd : path) :
  walk b f cwd [] = Found cwd true.
Proof. destruct b; reflexivity. Qed.

Lemma walk_cons (b : nat) (f : fs) (cwd : path) (c : string) (rest : path) :
  walk b f cwd (c :: rest) =
    match f !! (cwd ++ [c])%list with
    | None => ENOENT
    | Some Directory => walk b f (cwd ++ [c])%list rest
    | Some Regular =>
        match rest with
        | [] => Found (cwd ++ [c])%list false
        | _ :: _ => ENOTDIR
        end
    | Some (Symlink t) =>
        match b with
        | O => ELOOP
        | S b' => walk b' f [] (t ++ rest)%list
        end
    end.
Proof. destruct b; reflexivity. Qed.

(** An answer other than [ELOOP] does not depend on the links left. *)
Lemma walk_mono (f : fs) (b b2 : nat) :
  b <= b2 -> forall cwd rest,
  walk b f cwd rest <> ELOOP -> walk b2 f cwd rest = walk b f cwd rest.
Proof.
  revert b2. induction b as [|b IH]; intros b2 Hle cwd rest; revert cwd.
  - induction rest as [|c rest IHr]; intros cwd; [rewrite !walk_nil; auto|].
    rewrite !walk_cons. destruct (f !! (cwd ++ [c])%list) as [[| |t]|]; auto.
    intros H. destruct (H eq_refl).
  - destruct b2 as [|b2]; [lia|].
    induction rest as [|c rest IHr]; intros cwd; [rewrite !walk_nil; auto|].
    rewrite !walk_cons. destruct (f !! (cwd ++ [c])%list) as [[| |t]|]; auto.
    apply IH. lia.
Qed.

(** A walk that arrives has walked every beginning of its path. *)
Lemma walk_prefix (f : fs) (b : nat) :
  forall l1 l2 cwd a d,
  walk b f cwd (l1 ++ l2)%list = Found a d ->
  exists a' d', walk b f cwd l1 = Found a' d'.
Proof.
  induction b as [|b IH]; intros l1 l2.
  - induction l1 as [|c l1 IHl]; intros cwd a d;
      [rewrite walk_nil; eauto|].
    rewrite <- app_comm_cons, !walk_cons.
    destruct (f !! (cwd ++ [c])%list) as [[| |t]|]; try discriminate; eauto.
    destruct l1; simpl; [eauto|discriminate].
  - induction l1 as [|c l1 IHl]; intros cwd a d;
      [rewrite walk_nil; eauto|].
    rewrite <- app_comm_cons, !walk_cons.
    destruct (f !! (cwd ++ [c])%list) as [[| |t]|]; try discriminate; eauto.
    + destruct l1; simpl; [eauto|discriminate].
    + rewrite app_assoc. apply IH.
Qed.

(** A walk that arrives does not pass a broken link, and arrives as well
    when the link is gone. *)
Lemma walk_delete (f : fs) (q : path) :
  broken f q ->
  forall b, b <= max_links -> forall rest cwd a d,
  walk b f cwd rest = Found a d ->
  walk b (delete q f) cwd rest = Found a d.
Proof.
  intros (t & Hq & Hbroken).
  assert (forall b rest a d, b <= pred max_links ->
            walk b f [] (t ++ rest)%list <> Found a d) as Hstop.
  { intros b rest a d Hle H.
    destruct (walk_prefix f b t rest [] a d H) as (a' & d' & H').
    apply (Hbroken a' d'). rewrite <- H'. apply walk_mono; [exact Hle|].
    rewrite H'. discriminate. }
  induction b as [|b IH]; intros Hle.
  - induction rest as [|c rest IHr]; intros cwd a d;
      [rewrite !walk_nil; auto|].
    rewrite !walk_cons.
    destruct (decide (q = (cwd ++ [c])%list)) as [->|Hne].
    + rewrite Hq. discriminate.
    + rewrite lookup_delete_ne by exact Hne.
      destruct (f !! (cwd ++ [c])%list) as [[| |t']|]; auto.
  - induction rest as [|c rest IHr]; intros cwd a d;
      [rewrite !walk_nil; auto|].
    rewrite !walk_cons.
    destruct (decide (q = (cwd ++ [c])%list)) as [->|Hne].
    + rewrite Hq. intros H. exfalso. apply (Hstop b rest a d); [|exact H].
      unfold max_links in *. lia.
    + rewrite lookup_delete_ne by exact Hne.
      destruct (f !! (cwd ++ [c])%list) as [[| |t']|]; auto.
      apply IH. lia.
Qed.

Lemma stat_at_link (f : fs) (dir : path) (name : string) (t : path) :
  f !! (dir ++ [name])%list = Some (Symlink t) ->
  stat_at f dir name = walk (pred max_links) f [] t.
Proof.
  intros H. unfold stat_at. rewrite walk_cons, H.
  change (walk (pred max_links) f [] (t ++ [])%list
          = walk (pred max_links) f [] t).
  rewrite app_nil_r. reflexivity.
Qed.

Lemma xtype_l_true (f : fs) (dir : path) (name : string) :
  xtype_l f dir name = Some true -> broken f (dir ++ [name])%list.
Proof.
  unfold xtype_l.
  destruct (f !! (dir ++ [name])%list) as [[| |t]|] eqn:Hq; try discriminate.
  rewrite (stat_at_link f dir name t Hq). intros H. exists t.
  split; [exact Hq|]. intros a d Hw. rewrite Hw in H. discriminate.
Qed.

(** *** One entry *)

Lemma visit_files (s : fs * bool) (e : path * string) :
  (visit s e).1 = s.1 \/
  (broken s.1 (entry_path e) /\
   (visit s e).1 = delete (entry_path e) s.1).
Proof.
  unfold visit. destruct (xtype_l s.1 e.1 e.2) as [[|]|] eqn:Hx; auto.
  right. split; [apply xtype_l_true, Hx|reflexivity].
Qed.

Lemma visit_status (s : fs * bool) (e : path * string) :
  (visit s e).2 = true -> s.2 = true.
Proof.
  unfold visit. destruct (xtype_l s.1 e.1 e.2) as [[|]|]; auto. discriminate.
Qed.

Lemma foldl_visit_status (order : list (path * string)) (s : fs * bool) :
  (foldl visit s order).2 = true -> s.2 = true.
Proof.
  revert s. induction order as [|e order IH]; intros s; simpl; [auto|].
  intros H. apply (visit_status s e), IH, H.
Qed.

(** What holds of a file system and still holds when a broken link is
    deleted, holds when [find] is done. *)
Lemma find_delete_ind (P : fs -> Prop) (order : list (path * string)) :
  (forall f q, broken f q -> P f -> P (delete q f)) ->
  forall s, P s.1 -> P (foldl visit s order).1.
Proof.
  intros Hstep. induction order as [|e order IH]; intros s Hs; simpl; [auto|].
  apply IH. destruct (visit_files s e) as [->|[Hb ->]]; auto.
Qed.

Lemma broken_delete (f : fs) (q p : path) :
  broken f q -> broken (delete q f) p -> broken f p.
Proof.
  intros Hq (t & Hp & Hstop). apply lookup_delete_Some in Hp as [_ Hp].
  exists t. split; [exact Hp|]. intros a d Hw.
  apply (Hstop a d). apply walk_delete; [exact Hq| |exact Hw].
  unfold max_links. lia.
Qed.

(** A walk that arrives before [find] arrives after it. *)
Lemma find_keeps_walks (order : list (path * string)) (s : fs * bool)
    (cwd rest a : path) (d : bool) :
  walk max_links s.1 cwd rest = Found a d ->
  walk max_links (foldl visit s order).1 cwd rest = Found a d.
Proof.
  apply (find_delete_ind
           (fun g => walk max_links g cwd rest = Found a d) order).
  intros f q Hq Hw. apply walk_delete; auto.
Qed.

(** An entry is as it was, or it was a broken link that [find] met and
    is gone. *)
Lemma find_lookup (order : list (path * string)) (p : path) :
  forall s,
  (foldl visit s order).1 !! p = s.1 !! p \/
  ((foldl visit s order).1 !! p = None /\ broken s.1 p /\
   p ∈ map entry_path order).
Proof.
  induction order as [|e order IH]; intros s; simpl; [auto|].
  destruct (IH (visit s e)) as [Hsame|(Hnone & Hb & Hin)];
    destruct (visit_files s e) as [Hv|[Hq Hv]]; rewrite Hv in *.
  - auto.
  - destruct (decide (entry_path e = p)) as [<-|Hne].
    + right. rewrite Hsame, lookup_delete_eq.
      repeat split; [exact Hq|apply list_elem_of_here].
    + left. rewrite Hsame. apply lookup_delete_ne, Hne.
  - right. repeat split; auto. apply list_elem_of_further, Hin.
  - right. repeat split; [exact Hnone| |apply list_elem_of_further, Hin].
    apply (broken_delete _ _ _ Hq Hb).
Qed.

(** When [find] has met no error, every link it met and left can be
    followed. *)
Lemma find_clean (order : list (path * string)) :
  forall s, (foldl visit s order).2 = true ->
  forall e t, e ∈ order ->
    (foldl visit s order).1 !! entry_path e = Some (Symlink t) ->
    exists a d, stat_at (foldl visit s order).1 e.1 e.2 = Found a d.
Proof.
  induction order as [|e0 order IH]; intros s Hok e t Hin Hl; simpl in *;
    [inversion Hin|].
  apply elem_of_cons in Hin as [->|Hin]; [|eauto].
  destruct (find_lookup order (entry_path e0) (visit s e0))
    as [Hsame|(Hnone & _)]; [|congruence].
  rewrite Hsame in Hl. apply foldl_visit_status in Hok.
  unfold visit in Hl, Hok |- *.
  destruct (xtype_l s.1 e0.1 e0.2) as [[|]|] eqn:Hx; simpl in *.
  - unfold entry_path in Hl. rewrite lookup_delete_eq in Hl. discriminate.
  - unfold xtype_l, entry_path in Hx, Hl. rewrite Hl in Hx.
    destruct (stat_at s.1 e0.1 e0.2) as [a d| | |] eqn:Hs; try discriminate.
    exists a, d. apply (find_keeps_walks order s). exact Hs.
  - discriminate.
Qed.



Lemma find_keeps_directories (order : list (path * string)) (f : fs)
    (r : path) (names : list string) :
  descends (find_delete order f).1 r names = true ->
  descends f r names = true.
Proof.
  unfold find_delete. revert r.
  induction names as [|c names IH]; intros r; simpl; [auto|].
  destruct (find_lookup order (r ++ [c])%list (f, true)) as [Hs|[Hn _]];
    simpl in *.
  - rewrite Hs. destruct (f !! (r ++ [c])%list) as [[]|]; auto.
  - rewrite Hn. discriminate.
Qed.

Lemma sample_entries_meet_all : meets_all sample_entries.
Proof.
  intros f r names name Hd [x Hx]. unfold sample_entries.
  apply list_elem_of_omap. exists (r ++ names ++ [name])%list. split.
  - apply list_elem_of_fmap. exists ((r ++ names ++ [name])%list, x).
    split; [reflexivity|]. apply elem_of_map_to_list. exact Hx.
  - unfold entry_of. rewrite !app_assoc, reverse_snoc, reverse_involutive.
    rewrite bool_decide_eq_true_2 by apply prefix_app_r, reflexivity.
    reflexivity.
Qed.

(** The model on [sample_tree], as [find] leaves the same tree: the links
    to nothing and through a file are gone, with the link to one of them;
    the links that lead to an entry are left; the links of the circle are
    left and are errors. *)
Example find_on_sample_tree :
  (find_delete (sample_entries sample_tree ["src"]) sample_tree).2 = false /\
  map (fun name =>
         (name,
          (find_delete (sample_entries sample_tree ["src"]) sample_tree).1
            !! ["src"; name]))
    ["dangling"; "todangling"; "viabroken"; "notdir";
     "ok"; "dirlink"; "via"; "self"; "p"; "q"; "toloop"; "real"]
  = [ ("dangling", None); ("todangling", None); ("viabroken", None);
      ("notdir", None);
      ("ok", Some (Symlink ["out"; "target"]));
      ("dirlink", Some (Symlink ["src"; "real"]));
      ("via", Some (Symlink ["src"; "dirlink"; "file"]));
      ("self", Some (Symlink ["src"; "self"]));
      ("p", Some (Symlink ["src"; "q"]));
      ("q", Some (Symlink ["src"; "p"]));
      ("toloop", Some (Symlink ["src"; "p"]));
      ("real", Some Directory) ].
Proof. split; vm_compute; reflexivity. Qed.

(** *** Running the instructions in order *)

Section Run.

Variable base_image : string -> option fs.
Variable context : fs.
Variable make_dir : string -> fs -> option fs.
Variable copy : fs -> string -> string -> string -> fs -> option fs.
Variable run_command : list string -> string -> fs -> option fs.
Variable entries : fs -> path -> list (path * string).

#[local] Abbreviation exec' :=
  (exec base_image context make_dir copy run_command entries).
#[local] Abbreviation run :=
  (exec_all base_image context make_dir copy run_command entries).
#[local] Abbreviation before :=
  (state_before base_image context make_dir copy run_command entries).

Lemma exec_all_cons (i : instruction) (l : list instruction)
    (st st' : state) :
  run (i :: l) st = Some st' ->
  exists st1, exec' i st = Some st1 /\ run l st1 = Some st'.
Proof.
  simpl. destruct (exec' i st) as [st1|]; [eauto|discriminate].
Qed.

Lemma exec_all_app (l1 l2 : list instruction) (st : state) :
  run (l1 ++ l2) st =
    match run l1 st with
    | Some st1 => run l2 st1
    | None => None
    end.
Proof.
  revert st. induction l1 as [|i l1 IH]; intros st; simpl; [reflexivity|].
  destruct (exec' i st); auto.
Qed.

(** A build that gets to an instruction has got to every one before it. *)
Lemma state_before_le (m n : nat) (st : state) :
  m <= n -> before n = Some st ->
  exists st0, before m = Some st0 /\
              run (drop m (take n backend)) st0 = Some st.
Proof.
  intros Hle. unfold state_before.
  rewrite <- (take_drop m (take n backend)) at 1.
  rewrite take_take, Nat.min_l by exact Hle. rewrite exec_all_app.
  destruct (run (take m backend) initial) as [st0|]; [eauto|discriminate].
Qed.

(** What an instruction that succeeds has done. *)
Lemma exec_frame (i : instruction) (st st' : state) :
  exec' i st = Some st' ->
  (workdir st', current st') = track (workdir st, current st) i /\
  completed st' = (if is_from i then finish st else completed st) /\
  match i with
  | FROM image _ => base_image image = Some (files st')
  | ENV _ _ | CMD _ => files st' = files st
  | WORKDIR _ => make_dir (workdir st') (files st) = Some (files st')
  | COPY None src dest =>
      copy context src (workdir st) dest (files st) = Some (files st')
  | COPY (Some a) src dest =>
      exists built,
        built_by a (completed st) = Some built /\
        copy built src (workdir st) dest (files st) = Some (files st')
  | RUN command =>
      match find_delete_root command with
      | Some root => run_find entries root (workdir st) (files st)
      | None => run_command command (workdir st) (files st)
      end = Some (files st')
  end.
Proof.
  destruct i as [image a| |command|d|[a|] src dest|]; simpl.
  - destruct (base_image image) as [f|]; [|discriminate].
    intros [= <-]. auto.
  - intros [= <-]. auto.
  - destruct (match find_delete_root command with
              | Some root => run_find entries root (workdir st) (files st)
              | None => run_command command (workdir st) (files st)
              end) as [f|]; [|discriminate].
    intros [= <-]. auto.
  - destruct (make_dir _ (files st)) as [f|] eqn:Hf; [|discriminate].
    intros [= <-]. auto.
  - destruct (built_by a (completed st)) as [built|]; [|discriminate].
    destruct (copy built src (workdir st) dest (files st)) as [f|] eqn:Hf;
      [|discriminate].
    intros [= <-]. eauto.
  - destruct (copy context src (workdir st) dest (files st)) as [f|];
      [|discriminate].
    intros [= <-]. auto.
  - intros [= <-]. auto.
Qed.

Lemma run_track (l : list instruction) (st st' : state) :
  run l st = Some st' ->
  (workdir st', current st') = foldl track (workdir st, current st) l.
Proof.
  revert st. induction l as [|i l IH]; intros st; simpl.
  - intros [= <-]. reflexivity.
  - destruct (exec' i st) as [st1|] eqn:H1; [|discriminate].
    intros H. rewrite (IH _ H).
    destruct (exec_frame i st st1 H1) as [-> _]. reflexivity.
Qed.

Lemma run_completed (l : list instruction) (st st' : state) :
  forallb (fun i => negb (is_from i)) l = true ->
  run l st = Some st' -> completed st' = completed st.
Proof.
  revert st. induction l as [|i l IH]; intros st; simpl.
  - intros _ [= <-]. reflexivity.
  - intros Hl. apply andb_true_iff in Hl as [Hi Hl].
    destruct (exec' i st) as [st1|] eqn:H1; [|discriminate].
    intros H. rewrite (IH _ Hl H).
    destruct (exec_frame i st st1 H1) as (_ & -> & _).
    destruct (is_from i); [discriminate|reflexivity].
Qed.

Lemma find_delete_root_delete_links :
  find_delete_root ["find"; "src/"; "-xtype"; "l"; "-delete"] = Some "src/".
Proof. vm_compute. reflexivity. Qed.

(** The copy of the bundle reads the file system the first stage had when
    its last step was done. *)
Lemma bundle_copy (st' : state) :
  before 16 = Some st' ->
  exists built st,
    before 8 = Some built /\ before 15 = Some st /\
    current built = Some "frontend-builder" /\
    copy (files built) "/phoenix/src/phoenix/server/static/" (workdir st)
      "/phoenix/src/phoenix/server/static/" (files st) = Some (files st').
Proof.
  intros H16.
  destruct (state_before_le 15 16 st' ltac:(lia) H16)
    as (st & H15 & Hcopy).
  destruct (state_before_le 8 15 st ltac:(lia) H15)
    as (built & H8 & Hstage).
  exists built, st. split; [exact H8|]. split; [exact H15|].
  pose proof (run_track _ _ _ H8) as Hbuilt.
  replace (foldl track (workdir initial, current initial) (take 8 backend))
    with ("/phoenix/app/", Some "frontend-builder") in Hbuilt
    by (vm_compute; reflexivity).
  injection Hbuilt as _ Hcur.
  split; [exact Hcur|].
  change (drop 8 (take 15 backend))
    with (FROM "python:3.11-bullseye" "backend-builder"
            :: drop 9 (take 15 backend)) in Hstage.
  apply exec_all_cons in Hstage as (st9 & Hfrom & Hstage).
  apply exec_frame in Hfrom as (_ & Hdone & _). simpl in Hdone.
  apply run_completed in Hstage; [|reflexivity].
  change (drop 15 (take 16 backend))
    with [COPY (Some "frontend-builder")
            "/phoenix/src/phoenix/server/static/"
            "/phoenix/src/phoenix/server/static/"] in Hcopy.
  apply exec_all_cons in Hcopy as (st16 & Hcopy & [= ->]).
  apply exec_frame in Hcopy as (_ & _ & f & Hf & Hcopy).
  rewrite Hstage, Hdone in Hf. unfold finish in Hf. rewrite Hcur in Hf.
  simpl in Hf. injection Hf as <-. exact Hcopy.
Qed.

(** The packaging step starts from what the deletion of the links has
    left, and the deletion has met no error. *)
Lemma links_deleted (st' : state) :
  before 17 = Some st' ->
  exists st w r,
    before 16 = Some st /\
    resolve (files st) [] "/phoenix" = Found w true /\
    resolve (files st) w "src/" = Found r true /\
    find_delete (entries (files st) r) (files st) = (files st', true).
Proof.
  intros H17.
  destruct (state_before_le 16 17 st' ltac:(lia) H17)
    as (st & H16 & Hfind).
  pose proof (run_track _ _ _ H16) as Hdir.
  replace (foldl track (workdir initial, current initial) (take 16 backend))
    with ("/phoenix", Some "backend-builder") in Hdir
    by (vm_compute; reflexivity).
  injection Hdir as Hdir _.
  change (drop 16 (take 17 backend))
    with [RUN ["find"; "src/"; "-xtype"; "l"; "-delete"]] in Hfind.
  apply exec_all_cons in Hfind as (st17 & Hfind & [= ->]).
  apply exec_frame in Hfind as (_ & _ & Hfind). cbv beta iota in Hfind.
  rewrite find_delete_root_delete_links in Hfind.
  unfold run_find in Hfind. rewrite Hdir in Hfind.
  destruct (resolve (files st) [] "/phoenix") as [w [|]| | |] eqn:Hw;
    try discriminate.
  destruct (resolve (files st) w "src/") as [r [|]| | |] eqn:Hr;
    try discriminate.
  destruct (find_delete (entries (files st) r) (files st)) as [f' [|]]
    eqn:Hf; simpl in Hfind; [|discriminate].
  injection Hfind as ->. exists st, w, r. auto.
Qed.

End Run.

(** Case analysis on a position of the file: [H] is evaluated at each of
    the first [n] positions, and past them. *)
Ltac each_position i H n :=
  lazymatch n with
  | O => vm_compute in H
  | S ?n' => destruct i as [|i]; [vm_compute in H | each_position i H n']
  end.

(** C9: in the order of the file, the build step of the first stage comes
    before the copy of its bundle into the second stage, as does every
    other step of the first stage; every copy comes before the deletion of
    the links, and the deletion comes immediately before the packaging
    step.  Run in that order, for every base image and build context and
    whatever the other steps do, in every build that gets there:
    - the copy of the bundle reads the file system the first stage had when
      its last step was done;
    - the packaging step starts from the file system the deletion of the
      links has left, having met no error: every link it has met below
      [src/] and left can be followed to an entry (it leads neither to
      nothing nor around in a circle), and when it has met every entry, so
      can every link reached from [src/] through directories. *)
Theorem build_order :
  backend !! 7%nat = Some (RUN ["pnpm"; "run"; "build"]) /\
  backend !! 15%nat =
    Some (COPY (Some "frontend-builder")
            "/phoenix/src/phoenix/server/static/"
            "/phoenix/src/phoenix/server/static/") /\
  backend !! 16%nat = Some delete_links /\
  backend !! 17%nat = Some package /\
  (forall i j from src dest,
     backend !! j = Some (COPY (Some from) src dest) ->
     stages !! i = Some (Some from) -> i < j) /\
  (forall i x, backend !! i = Some x -> is_copy x = true -> i < 16) /\
  (forall base_image context make_dir copy run_command entries,
     let before :=
       state_before base_image context make_dir copy run_command entries in
     (forall st',
        before 16%nat = Some st' ->
        exists built st,
          before 8%nat = Some built /\ before 15%nat = Some st /\
          current built = Some "frontend-builder" /\
          copy (files built) "/phoenix/src/phoenix/server/static/"
            (workdir st) "/phoenix/src/phoenix/server/static/" (files st)
            = Some (files st')) /\
     (forall st',
        before 17%nat = Some st' ->
        exists st w r,
          before 16%nat = Some st /\
          resolve (files st) [] "/phoenix" = Found w true /\
          resolve (files st) w "src/" = Found r true /\
          find_delete (entries (files st) r) (files st)
            = (files st', true) /\
          (forall e t,
             e ∈ entries (files st) r ->
             files st' !! entry_path e = Some (Symlink t) ->
             exists a d, stat_at (files st') e.1 e.2 = Found a d) /\
          (meets_all entries ->
           forall names name t,
             descends (files st') r names = true ->
             files st' !! (r ++ names ++ [name])%list = Some (Symlink t) ->
             exists a d,
               stat_at (files st') (r ++ names)%list name = Found a d))).
Proof.
  repeat apply conj; try reflexivity.
  - intros i j from src dest Hj Hi.
    each_position j Hj 19%nat; try discriminate Hj.
    injection Hj as <- _ _.
    each_position i Hi 19%nat; try discriminate Hi; lia.
  - intros i x Hx Hc.
    each_position i Hx 19%nat; try discriminate Hx;
      injection Hx as <-; first [discriminate Hc | lia].
  - intros base_image context make_dir copy run_command entries before.
    subst before. split; [apply bundle_copy|].
    intros st' H17.
    destruct (links_deleted _ _ _ _ _ _ st' H17)
      as (st & w & r & H16 & Hw & Hr & Hfind).
    exists st, w, r. repeat (split; [assumption|]).
    assert (files st' = (find_delete (entries (files st) r) (files st)).1)
      as Hfiles by (rewrite Hfind; reflexivity).
    assert (forall e t,
              e ∈ entries (files st) r ->
              files st' !! entry_path e = Some (Symlink t) ->
              exists a d, stat_at (files st') e.1 e.2 = Found a d) as Hclean.
    { rewrite Hfiles. apply find_clean. unfold find_delete in Hfind.
      rewrite Hfind. reflexivity. }
    split; [exact Hclean|].
    intros Hall names name t Hd Hl.
    apply (Hclean ((r ++ names)%list, name) t).
    + apply Hall.
      * rewrite Hfiles in Hd. apply find_keeps_directories in Hd. exact Hd.
      * rewrite Hfiles in Hl.
        destruct (find_lookup (entries (files st) r)
                    (r ++ names ++ [name])%list (files st, true))
          as [Hsame|[Hnone _]]; unfold find_delete in Hl.
        -- cbn [fst] in Hsame. rewrite <- Hsame, Hl. eauto.
        -- rewrite Hnone in Hl. discriminate.
    + unfold entry_path. simpl. rewrite <- app_assoc. exact Hl.
Qed.

(** A link to itself among the sources stops the build at the deletion of
    the links; a file missing from the context stops it at its copy. *)
Example failing_builds :
  is_Some (state_before sample_base_image context_with_loop sample_make_dir
             sample_copy sample_run_command sample_entries 16) /\
  state_before sample_base_image context_with_loop sample_make_dir
    sample_copy sample_run_command sample_entries 17 = None /\
  is_Some (state_before sample_base_image context_without_license
             sample_make_dir sample_copy sample_run_command sample_entries
             12) /\
  state_before sample_base_image context_without_license sample_make_dir
    sample_copy sample_run_command sample_entries 13 = None.
Proof.
  repeat apply conj; try (vm_compute; reflexivity);
    apply (bool_decide_unpack _); vm_compute; exact I.
Qed.

(** The sample build gets to the packaging step.  The page the first stage
    has built is there, in the place of the development link; the other
    development link is gone; the link to the license is left and can be
    followed. *)
Lemma build_order_sample :
  exists st',
    state_before sample_base_image sample_context sample_make_dir
      sample_copy sample_run_command sample_entries 17 = Some st' /\
    files st' !! (static ++ ["index.html"])%list = Some Regular /\
    files st' !! (static ++ ["modernizr.js"])%list = None /\
    files st' !! ["phoenix"; "src"; "phoenix"; "license"]
      = Some (Symlink ["phoenix"; "LICENSE"]) /\
    exists a d,
      stat_at (files st') ["phoenix"; "src"; "phoenix"] "license"
        = Found a d.
Proof.
  assert (is_Some (state_before sample_base_image sample_context
                     sample_make_dir sample_copy sample_run_command
                     sample_entries 17)) as [st' H17]
    by (apply (bool_decide_unpack _); vm_compute; exact I).
  exists st'. split; [exact H17|].
  destruct build_order as (_ & _ & _ & _ & _ & _ & Hrun).
  destruct (Hrun sample_base_image sample_context sample_make_dir
              sample_copy sample_run_command sample_entries) as [_ Hfind].
  destruct (Hfind st' H17) as (st & w & r & H16 & Hw & Hr & _ & _ & Hall).
  assert (option_map
            (fun s => (files s !! (static ++ ["index.html"])%list,
                       files s !! (static ++ ["modernizr.js"])%list,
                       files s !! ["phoenix"; "src"; "phoenix"; "license"],
                       descends (files s) ["phoenix"; "src"] ["phoenix"]))
            (state_before sample_base_image sample_context sample_make_dir
               sample_copy sample_run_command sample_entries 17)
          = Some (Some Regular, None,
                  Some (Symlink ["phoenix"; "LICENSE"]), true)) as Hfiles
    by (vm_compute; reflexivity).
  rewrite H17 in Hfiles. injection Hfiles as Hpage Hgone Hlink Hdir.
  repeat (split; [assumption|]).
  assert (option_map
            (fun s => (resolve (files s) [] "/phoenix",
                       resolve (files s) ["phoenix"] "src/"))
            (state_before sample_base_image sample_context sample_make_dir
               sample_copy sample_run_command sample_entries 16)
          = Some (Found ["phoenix"] true, Found ["phoenix"; "src"] true))
    as Hroot by (vm_compute; reflexivity).
  rewrite H16 in Hroot. injection Hroot as Hw' Hr'.
  rewrite Hw' in Hw. injection Hw as <-.
  rewrite Hr' in Hr. injection Hr as <-.
  apply (Hall sample_entries_meet_all ["phoenix"] "license"
           ["phoenix"; "LICENSE"] Hdir Hlink).
Defined.

(** *** What is written outside of a directory *)

Lemma apart_spec (d p : path) :
  apart d p = true <-> ~ d `prefix_of` p /\ ~ p `prefix_of` d.
Proof.
  unfold apart. rewrite andb_true_iff, !negb_true_iff.
  rewrite !bool_decide_eq_false. reflexivity.
Qed.

Lemma apart_below (root d p : path) :
  root `prefix_of` d -> apart root p = true -> apart d p = true.
Proof.
  intros Hd Hp. apply apart_spec in Hp as [H1 H2]. apply apart_spec. split.
  - intros H. apply H1. etrans; eauto.
  - intros H. destruct (prefix_weak_total _ _ _ Hd H); auto.
Qed.

Section Frame.

Variable base_image : string -> option fs.
Variable context : fs.
Variable make_dir : string -> fs -> option fs.
Variable copy : fs -> string -> string -> string -> fs -> option fs.
Variable run_command : list string -> string -> fs -> option fs.
Variable entries : fs -> path -> list (path * string).

(** [WORKDIR] and [COPY] leave alone what is neither on the way to the
    place they name nor below it. *)
Hypothesis make_dir_frame :
  forall d f f', is_absolute d = true -> make_dir d f = Some f' ->
  forall p, apart (components d) p = true -> f' !! p = f !! p.
Hypothesis copy_frame :
  forall source src dir dest f f',
  is_absolute dest = true -> copy source src dir dest f = Some f' ->
  forall p, apart (components dest) p = true -> f' !! p = f !! p.

#[local] Abbreviation exec' :=
  (exec base_image context make_dir copy run_command entries).
#[local] Abbreviation run :=
  (exec_all base_image context make_dir copy run_command entries).

Lemma exec_writes_below (root : path) (i : instruction) (st st' : state)
    (p : path) :
  writes_below root i = true -> exec' i st = Some st' ->
  apart root p = true ->
  files st' !! p = files st !! p \/
  (files st' !! p = None /\ exists t, files st !! p = Some (Symlink t)).
Proof.
  intros Hw Hexec Hp.
  destruct (exec_frame _ _ _ _ _ _ i st st' Hexec) as (Htrack & _ & Hfiles).
  destruct i as [image a| |command|d|from src dest|]; simpl in Hw.
  - discriminate.
  - left. congruence.
  - apply bool_decide_eq_true_1 in Hw as [root' Hroot].
    rewrite Hroot in Hfiles. unfold run_find in Hfiles.
    destruct (resolve (files st) [] (workdir st)) as [w [|]| | |];
      try discriminate.
    destruct (resolve (files st) w root') as [r [|]| | |]; try discriminate.
    destruct (find_delete (entries (files st) r) (files st)) as [f' ok]
      eqn:Hf; simpl in Hfiles. destruct ok; [|discriminate].
    injection Hfiles as <-.
    destruct (find_lookup (entries (files st) r) p (files st, true))
      as [Hsame|(Hnone & (t & Ht & _) & _)];
      unfold find_delete in Hf; rewrite Hf in *; simpl in *; eauto.
  - apply andb_true_iff in Hw as [Habs Hbelow].
    apply bool_decide_eq_true_1 in Hbelow.
    simpl in Htrack. rewrite Habs in Htrack. injection Htrack as Hd _.
    rewrite Hd in Hfiles. left.
    apply (make_dir_frame d _ _ Habs Hfiles), (apart_below root); auto.
  - apply andb_true_iff in Hw as [Habs Hbelow].
    apply bool_decide_eq_true_1 in Hbelow. left.
    destruct from as [a|].
    + destruct Hfiles as (built & _ & Hcopy).
      apply (copy_frame _ _ _ dest _ _ Habs Hcopy), (apart_below root); auto.
    + apply (copy_frame _ _ _ dest _ _ Habs Hfiles), (apart_below root);
        auto.
  - left. congruence.
Qed.

Lemma run_writes_below (root : path) (l : list instruction) (p : path) :
  apart root p = true ->
  forall st st',
  forallb (writes_below root) l = true -> run l st = Some st' ->
  files st' !! p = files st !! p \/
  (files st' !! p = None /\ exists t, files st !! p = Some (Symlink t)).
Proof.
  intros Hp. induction l as [|i l IH]; intros st st' Hl; simpl.
  - intros [= <-]. auto.
  - simpl in Hl. apply andb_true_iff in Hl as [Hi Hl].
    destruct (exec' i st) as [st1|] eqn:H1; [|discriminate].
    intros H.
    destruct (exec_writes_below root i st st1 p Hi H1 Hp)
      as [H1same|[H1none H1link]];
      destruct (IH st1 st' Hl H) as [Hsame|[Hnone [t Hlink]]].
    + left. congruence.
    + right. rewrite <- H1same. eauto.
    + right. split; [congruence|exact H1link].
    + congruence.
Qed.

End Frame.

(** On the way to the packaging step the second stage writes below
    [/phoenix] only.  When [WORKDIR] and [COPY] leave alone what is neither
    on the way to the place they name nor below it, then in every build that
    gets to the packaging step an entry that is neither the root directory
    nor below [/phoenix] is as the base image of the second stage has it,
    or it was a link of the base image and is gone: nothing of the first
    stage and nothing of the build context is there. *)
Theorem backend_stage_writes_below_phoenix
    (base_image : string -> option fs) (context : fs)
    (make_dir : string -> fs -> option fs)
    (copy : fs -> string -> string -> string -> fs -> option fs)
    (run_command : list string -> string -> fs -> option fs)
    (entries : fs -> path -> list (path * string)) (st : state) :
  (forall d f f', is_absolute d = true -> make_dir d f = Some f' ->
     forall p, apart (components d) p = true -> f' !! p = f !! p) ->
  (forall source src dir dest f f',
     is_absolute dest = true -> copy source src dir dest f = Some f' ->
     forall p, apart (components dest) p = true -> f' !! p = f !! p) ->
  state_before base_image context make_dir copy run_command entries 17
    = Some st ->
  exists base,
    base_image "python:3.11-bullseye" = Some base /\
    forall p, apart ["phoenix"] p = true ->
      files st !! p = base !! p \/
      (files st !! p = None /\ exists t, base !! p = Some (Symlink t)).
Proof.
  intros Hdir Hcopy H17.
  destruct (state_before_le _ _ _ _ _ _ 8 17 st ltac:(lia) H17)
    as (st8 & _ & Hstage).
  change (drop 8 (take 17 backend))
    with (FROM "python:3.11-bullseye" "backend-builder"
            :: drop 9 (take 17 backend)) in Hstage.
  apply exec_all_cons in Hstage as (st9 & Hfrom & Hstage).
  apply exec_frame in Hfrom as (_ & _ & Hbase).
  exists (files st9). split; [exact Hbase|]. intros p Hp.
  eapply run_writes_below;
    [exact Hdir|exact Hcopy|exact Hp| |exact Hstage].
  vm_compute. reflexivity.
Qed.

Lemma make_dirs_frame (names : path) :
  forall f cwd f' p,
  make_dirs f cwd names = Some f' ->
  ~ p `prefix_of` (cwd ++ names)%list -> f' !! p = f !! p.
Proof.
  induction names as [|c names IH]; intros f cwd f' p; simpl.
  - intros [= <-]. reflexivity.
  - intros H Hp.
    assert (~ p `prefix_of` ((cwd ++ [c]) ++ names)%list) as Hp'
      by (rewrite <- app_assoc; exact Hp).
    destruct (f !! (cwd ++ [c])%list) as [[| |t]|] eqn:Hc; try discriminate.
    + apply (IH _ _ _ _ H Hp').
    + rewrite (IH _ _ _ _ H Hp'). apply lookup_insert_ne.
      intros <-. apply Hp'. apply prefix_app_r. reflexivity.
Qed.

Lemma sample_make_dir_frame (d : string) (f f' : fs) :
  is_absolute d = true -> sample_make_dir d f = Some f' ->
  forall p, apart (components d) p = true -> f' !! p = f !! p.
Proof.
  intros _ H p Hp. apply apart_spec in Hp as [_ Hp].
  apply (make_dirs_frame _ _ _ _ _ H). exact Hp.
Qed.

Lemma sample_copy_frame (source : fs) (src dir dest : string) (f f' : fs) :
  is_absolute dest = true -> sample_copy source src dir dest f = Some f' ->
  forall p, apart (components dest) p = true -> f' !! p = f !! p.
Proof.
  intros Habs H p Hp. apply apart_spec in Hp as [Hp _].
  unfold sample_copy in H. rewrite Habs in H. simpl in H.
  destruct (source !! components src) as [[| |t]|]; try discriminate;
    injection H as <-.
  1,3: apply lookup_insert_ne; intros <-; apply Hp;
       destruct (bool_decide (last_char dest = Some "/"%char));
       [apply prefix_app_r|]; reflexivity.
  rewrite lookup_union_r; [reflexivity|].
  apply not_elem_of_list_to_map_1. intros Hin.
  apply list_elem_of_fmap in Hin as ([p' x] & -> & Hin).
  apply list_elem_of_omap in Hin as ([q y] & _ & Hq).
  unfold move in Hq. simpl in Hq.
  destruct (bool_decide (components src `prefix_of` q)); [|discriminate].
  injection Hq as <- _. apply Hp. apply prefix_app_r. reflexivity.
Qed.

(** In the sample build the interpreter of the first stage's image is not
    in the second stage, and the interpreter of its own base image is. *)
Lemma backend_stage_writes_below_phoenix_sample :
  exists st,
    state_before sample_base_image sample_context sample_make_dir
      sample_copy sample_run_command sample_entries 17 = Some st /\
    files st !! ["usr"; "node"] = None /\
    files st !! ["usr"; "python"] = Some Regular.
Proof.
  assert (is_Some (state_before sample_base_image sample_context
                     sample_make_dir sample_copy sample_run_command
                     sample_entries 17)) as [st H17]
    by (apply (bool_decide_unpack _); vm_compute; exact I).
  exists st. split; [exact H17|].
  destruct (backend_stage_writes_below_phoenix sample_base_image
              sample_context sample_make_dir sample_copy sample_run_command
              sample_entries st sample_make_dir_frame sample_copy_frame H17)
    as (base & Hbase & Hout).
  assert (option_map (fun b : fs => (b !! ["usr"; "node"],
                                      b !! ["usr"; "python"]))
            (sample_base_image "python:3.11-bullseye")
          = Some (None, Some Regular)) as Hfiles by (vm_compute; reflexivity).
  rewrite Hbase in Hfiles. injection Hfiles as Hnode Hpython.
  assert (apart ["phoenix"] ["usr"; "node"] = true) as Hn
    by (vm_compute; reflexivity).
  assert (apart ["phoenix"] ["usr"; "python"] = true) as Hp
    by (vm_compute; reflexivity).
  split.
  - destruct (Hout _ Hn) as [->|[-> _]]; [exact Hnode|reflexivity].
  - destruct (Hout _ Hp) as [->|[_ [t Ht]]]; [exact Hpython|congruence].
Defined.

(** ** Declarations before use *)

Lemma inline_closed (d : gmap string EntryKind) (sigma : subst) :
  closes d sigma ->
  (forall s, uses_declared d s = true -> references (inline sigma s) = []) /\
  (forall ss, all_use_declared d ss = true ->
     references_of (inlines sigma ss) = []).
Proof.
  intros Hc. apply Selection_mutind; simpl; auto.
  - intros v Hv. apply bool_decide_eq_true_1 in Hv.
    destruct (Hc v _ Hv) as (e & -> & Hk & Hr).
    destruct e; [exact Hr | discriminate].
  - intros s IHs rest IHrest H. apply andb_true_iff in H as [H1 H2].
    rewrite (IHs H1), (IHrest H2). reflexivity.
  - intros v Hv. apply bool_decide_eq_true_1 in Hv.
    destruct (Hc v _ Hv) as (e & -> & Hk & Hr).
    destruct e; [discriminate | exact Hr].
Qed.

Lemma well_scoped_from_closed (a : Arena) (ss : Selections) :
  forall d sigma, closes d sigma -> well_scoped_from d a ss = true ->
    references_of (inlines (close_from sigma a) ss) = [].
Proof.
  induction a as [|[v e] a IH]; intros d sigma Hc; simpl.
  - apply (inline_closed d sigma Hc).
  - intros H. apply andb_true_iff in H as [He Hrest].
    apply (IH (<[ v := kind_of e ]> d)); [|exact Hrest].
    intros w k Hw. destruct (decide (v = w)) as [<-|Hne].
    + rewrite lookup_insert_eq in Hw. injection Hw as <-.
      exists (inline_entry sigma e). rewrite lookup_insert_eq.
      repeat split; destruct e; simpl; try reflexivity;
        apply (inline_closed d sigma Hc); exact He.
    + rewrite lookup_insert_ne in Hw by done.
      rewrite lookup_insert_ne by done. apply Hc, Hw.
Qed.

(** When every declaration uses only the declarations before it, and each
    at a place of its kind, evaluating the declarations in order and then
    the tree leaves no use of a variable unresolved: the tree the module
    exports is a tree of selections and nothing else. *)
Theorem well_scoped_trees_are_closed (a : Arena) (ss : Selections) :
  well_scoped a ss = true ->
  references_of (inlines (close a) ss) = [].
Proof.
  apply well_scoped_from_closed. intros v k Hv.
  rewrite lookup_empty in Hv. discriminate.
Qed.

(** Both trees of both bindings are well scoped, and so without unresolved
    uses once the module is evaluated. *)
Lemma well_scoped_trees_are_closed_bindings :
  Forall (fun a =>
    (well_scoped (vars a) (ReaderFragment.selections (fragment (node a)))
       = true /\
     well_scoped (vars a)
       (NormalizationOperation.selections (operation (node a))) = true) /\
    references_of (fragment_tree a) = [] /\
    references_of (operation_tree a) = []) bindings.
Proof.
  each_binding;
    (split; [split; reflexivity|];
     split; apply well_scoped_trees_are_closed; reflexivity).
Defined.

(** No selection and no array of selections is written twice in a module:
    what occurs more than once is declared once and named where it is
    used.  The declared names are distinct, each is used at least twice,
    and no other name is used. *)
Theorem shared_selections_are_stored_once :
  Forall (fun a =>
    NoDup (written a) /\
    NoDup (map fst (vars a)) /\
    Forall (fun v => 2 <= count_occ String.string_dec (uses a) v)
      (map fst (vars a)) /\
    uses a ⊆ map fst (vars a)) bindings.
Proof.
  each_binding; repeat apply conj; try by_compute;
    apply (NoDup_fmap_1 show_entry); by_compute.
Qed.

(** ** The exported type and the fragment tree *)

(** The exported type of the data has the structure of the fragment tree:
    at every object the keys of the type are the response keys the tree
    selects, in alphabetical order; a key is optional exactly when the
    tree selects it below a branch on a concrete type; under a key the type
    has a scalar, an object or a list as the tree has a scalar field, a
    singular or a plural linked field; and a fragment spread is the
    property that refers to the fragment. *)
Theorem data_type_follows_fragment_tree :
  Forall (fun a => type_shape (data a) = tree_shape (fragment_tree a))
    bindings.
Proof. each_binding; vm_compute; reflexivity. Qed.

(** ** The views have the exported type *)

Lemma conforms_props_forall (ps : props) (m : record) :
  conforms_props ps m = true <->
  forall k opt t, (k, opt, t) ∈ props_list ps -> prop_ok opt t (m !! k) = true.
Proof.
  induction ps as [|k opt t rest IH]; simpl.
  - split; [|reflexivity]. intros _ k opt t H. inversion H.
  - rewrite andb_true_iff, IH. split.
    + intros [Hhere Hrest] k' opt' t' Hin.
      apply elem_of_cons in Hin as [[= -> -> ->]|Hin]; [exact Hhere|].
      eauto.
    + intros H. split.
      * apply (H k opt t), list_elem_of_here.
      * intros k' opt' t' Hin. apply H, list_elem_of_further, Hin.
Qed.

Lemma lookup_prop_unique (ps : props) (k : string) (opt : bool) (t : tstype) :
  NoDup (prop_keys ps) -> (k, opt, t) ∈ props_list ps ->
  lookup_prop ps k = Some t.
Proof.
  induction ps as [|k' opt' t' rest IH]; simpl; intros Hnd Hin.
  - inversion Hin.
  - apply NoDup_cons in Hnd as [Hk' Hnd].
    apply elem_of_cons in Hin as [[= -> -> ->]|Hin].
    + rewrite String.eqb_refl. reflexivity.
    + destruct (String.eqb_spec k k') as [->|Hne]; [|auto].
      exfalso. apply Hk'. clear -Hin.
      induction rest as [|k'' o'' t'' rest IH]; simpl in *; [inversion Hin|].
      apply elem_of_cons in Hin as [[= -> -> ->]|Hin].
      * apply list_elem_of_here.
      * apply list_elem_of_further, IH, Hin.
Qed.

Lemma object_shape_object (t : tstype) (ps : props) (m : record) :
  object_shape t = Some ps -> conforms t (JObj m) = conforms_props ps m.
Proof.
  destruct t as [| | | |l r| |ps'| |]; simpl; try discriminate.
  - destruct l as [| | | | | |ps'| |]; try discriminate.
    destruct r; try discriminate.
    intros [= <-]. simpl. apply orb_false_r.
  - intros [= <-]. reflexivity.
Qed.

Lemma array_shape_array (t : tstype) (ps : props) :
  array_shape t = Some ps ->
  exists e, object_shape e = Some ps /\
            forall l, conforms t (JArr l) = forallb (conforms e) l.
Proof.
  destruct t as [| | | |l r|e| | |]; simpl; try discriminate.
  - destruct l as [| | | | |e| | |]; try discriminate.
    destruct r; try discriminate.
    intros He. exists e. split; [exact He|]. intros l. simpl. apply orb_false_r.
  - intros He. exists e. split; [exact He|]. reflexivity.
Qed.

Lemma read_items_conform (m : meaning) (e : tstype) (items vs : list json) :
  (forall o v, conforms e (JObj o) = true -> m o = Done v ->
               conforms e (JObj v) = true) ->
  forallb (conforms e) items = true ->
  read_items m items = Done vs ->
  forallb (conforms e) vs = true.
Proof.
  intros Hm. revert vs. induction items as [|i items IH]; simpl; intros vs.
  - intros _ [= <-]. reflexivity.
  - intros Hall. apply andb_true_iff in Hall as [Hi Hall].
    destruct i; try discriminate.
    + destruct (read_items m items) as [vs'|]; simpl; [|discriminate].
      intros [= <-]. simpl. rewrite Hi. simpl. apply IH; auto.
    + destruct (m fields) as [v|] eqn:Hv; simpl; [|discriminate].
      destruct (read_items m items) as [vs'|]; simpl; [|discriminate].
      intros [= <-]. simpl. rewrite (Hm _ _ Hi Hv). simpl. apply IH; auto.
Qed.

Lemma read_field_present (s : Selection) (o c : record) (k : string) :
  selected_key s = Some k ->
  is_Some (o !! k) -> read ∅ s o = Done c -> is_Some (c !! k).
Proof.
  destruct s as [a ar n sk|a ar ct n p ss sk| | | |]; try discriminate;
    intros [= <-] [x Hx]; simpl; rewrite Hx.
  - intros [= <-]. rewrite lookup_singleton_eq. eauto.
  - destruct x as [| | | |items|o']; destruct p; try discriminate;
      try (intros [= <-]; rewrite lookup_singleton_eq; eauto).
    + destruct (read_items (reads ∅ ss) items); simpl; [|discriminate].
      intros [= <-]. rewrite lookup_singleton_eq. eauto.
    + destruct (reads ∅ ss o'); simpl; [|discriminate].
      intros [= <-]. rewrite lookup_singleton_eq. eauto.
Qed.

Lemma reads_selected_present (ss : Selections) (o view : record) (k : string) :
  k ∈ selected_keys ss -> is_Some (o !! k) ->
  reads ∅ ss o = Done view -> is_Some (view !! k).
Proof.
  intros Hk Ho. revert view.
  induction ss as [|s rest IH|v]; simpl; intros view.
  - inversion Hk.
  - unfold selected_keys in Hk. simpl in Hk.
    destruct (read ∅ s o) as [c|] eqn:Hc; simpl; [|discriminate].
    destruct (reads ∅ rest o) as [w|] eqn:Hw; simpl; [|discriminate].
    intros [= <-]. apply lookup_union_is_Some.
    destruct (selected_key s) as [k'|] eqn:Hs.
    + apply elem_of_cons in Hk as [->|Hk].
      * left. eapply read_field_present; eauto.
      * right. apply IH; auto.
    + right. apply IH; auto.
  - inversion Hk.
Qed.

Lemma conforms_view (ps : props) (ss : Selections) (o view : record) :
  (forall k v opt t, view !! k = Some v -> (k, opt, t) ∈ props_list ps ->
                     conforms t v = true) ->
  selects_required ps ss = true ->
  conforms_props ps o = true ->
  reads ∅ ss o = Done view ->
  conforms_props ps view = true.
Proof.
  intros Hvalues Hsel Ho Hview. apply conforms_props_forall.
  intros k opt t Hin. destruct (view !! k) as [v|] eqn:Hv; simpl; [eauto|].
  destruct opt; [reflexivity|]. exfalso.
  apply andb_true_iff in Hsel as [Hsel _].
  apply bool_decide_eq_true_1 in Hsel.
  assert (k ∈ required_keys ps) as Hreq.
  { unfold required_keys. apply list_elem_of_omap.
    exists (k, false, t). split; [exact Hin|reflexivity]. }
  assert (is_Some (o !! k)) as Hok.
  { pose proof (proj1 (conforms_props_forall ps o) Ho k false t Hin) as H.
    destruct (o !! k); [eauto|discriminate]. }
  destruct (reads_selected_present ss o view k (Hsel _ Hreq) Hok Hview)
    as [x Hx]. congruence.
Qed.

Lemma view_values :
  (forall s ps o c, describes ps s = true -> NoDup (prop_keys ps) ->
     conforms_props ps o = true -> read ∅ s o = Done c ->
     forall k v opt t, c !! k = Some v -> (k, opt, t) ∈ props_list ps ->
                       conforms t v = true) /\
  (forall ss ps o c, describes_all ps ss = true -> NoDup (prop_keys ps) ->
     conforms_props ps o = true -> reads ∅ ss o = Done c ->
     forall k v opt t, c !! k = Some v -> (k, opt, t) ∈ props_list ps ->
                       conforms t v = true).
Proof.
  apply Selection_mutind; simpl.
  - intros a ar n sk ps o c _ Hnd Ho Hc k v opt t Hk Hin.
    destruct (o !! response_key a n) as [x|] eqn:Hx; injection Hc as <-.
    + apply lookup_singleton_Some in Hk as [<- <-].
      pose proof (proj1 (conforms_props_forall ps o) Ho _ _ _ Hin) as H.
      rewrite Hx in H. exact H.
    + rewrite lookup_empty in Hk. discriminate.
  - intros a ar ct n p ss IH sk ps o c Hd Hnd Ho Hc k v opt t Hk Hin.
    destruct (lookup_prop ps (response_key a n)) as [t1|] eqn:Ht1;
      [|discriminate].
    assert (forall x, c = {[ response_key a n := x ]} ->
              k = response_key a n /\ v = x /\ t = t1) as Hone.
    { intros x ->. apply lookup_singleton_Some in Hk as [<- <-].
      repeat split. pose proof (lookup_prop_unique _ _ _ _ Hnd Hin). congruence. }
    destruct (o !! response_key a n) as [x|] eqn:Hx.
    2:{ destruct p; injection Hc as <-; rewrite lookup_empty in Hk;
          discriminate. }
    assert (conforms t1 x = true) as Hcx.
    { destruct (String.eqb_spec k (response_key a n)) as [->|Hne].
      - pose proof (proj1 (conforms_props_forall ps o) Ho _ _ _ Hin) as H.
        rewrite Hx in H. simpl in H.
        pose proof (lookup_prop_unique _ _ _ _ Hnd Hin). congruence.
      - exfalso. destruct x, p; simpl in Hc; try discriminate;
          try (injection Hc as <-;
               apply lookup_singleton_Some in Hk as [? _]; congruence).
        + destruct (read_items (reads ∅ ss) items); simpl in Hc;
            [|discriminate]. injection Hc as <-.
          apply lookup_singleton_Some in Hk as [? _]; congruence.
        + destruct (reads ∅ ss fields); simpl in Hc; [|discriminate].
          injection Hc as <-.
          apply lookup_singleton_Some in Hk as [? _]; congruence. }
    destruct x as [| | | |items|o']; destruct p; simpl in Hc;
      try discriminate;
      try (injection Hc as <-;
           destruct (Hone _ eq_refl) as (-> & -> & ->); exact Hcx).
    + destruct (array_shape t1) as [ps'|] eqn:Hs; [|discriminate].
      apply andb_true_iff in Hd as [Hd Hsel].
      destruct (array_shape_array _ _ Hs) as (e & He & Harr).
      destruct (read_items (reads ∅ ss) items) as [vs|] eqn:Hvs;
        simpl in Hc; [|discriminate]. injection Hc as <-.
      destruct (Hone _ eq_refl) as (-> & -> & ->).
      rewrite Harr in *. eapply read_items_conform; [|exact Hcx|exact Hvs].
      intros o' v' Ho' Hv'.
      rewrite (object_shape_object e ps' v' He).
      rewrite (object_shape_object e ps' o' He) in Ho'.
      pose proof Hsel as Hsel'.
      apply andb_true_iff in Hsel' as [_ Hnd'].
      apply bool_decide_eq_true_1 in Hnd'.
      eapply conforms_view; [|exact Hsel|exact Ho'|exact Hv'].
      intros k' x' opt' t' Hk' Hin'. eapply (IH ps' o' v'); eauto.
    + destruct (object_shape t1) as [ps'|] eqn:Hs; [|discriminate].
      apply andb_true_iff in Hd as [Hd Hsel].
      destruct (reads ∅ ss o') as [v'|] eqn:Hv'; simpl in Hc; [|discriminate].
      injection Hc as <-.
      destruct (Hone _ eq_refl) as (-> & -> & ->).
      rewrite (object_shape_object t1 ps' v' Hs).
      rewrite (object_shape_object t1 ps' o' Hs) in Hcx.
      pose proof Hsel as Hsel'.
      apply andb_true_iff in Hsel' as [_ Hnd'].
      apply bool_decide_eq_true_1 in Hnd'.
      eapply conforms_view; [|exact Hsel|exact Hcx|exact Hv'].
      intros k' x' opt' t' Hk' Hin'. eapply (IH ps' o' v'); eauto.
  - intros ss IH t [ak|] ps o c Hd Hnd Ho Hc k v opt t' Hk Hin.
    + destruct (o !! ak); [eauto|]. injection Hc as <-.
      rewrite lookup_empty in Hk. discriminate.
    + destruct (typename o) as [tn|];
        [destruct (String.eqb t tn)|]; eauto;
        injection Hc as <-; rewrite lookup_empty in Hk; discriminate.
  - intros ak ps o c _ _ _ [= <-] k v opt t Hk. rewrite lookup_empty in Hk.
    discriminate.
  - intros ar n ps o c _ _ _ [= <-] k v opt t Hk. rewrite lookup_empty in Hk.
    discriminate.
  - discriminate.
  - intros ps o c _ _ _ [= <-] k v opt t Hk. rewrite lookup_empty in Hk.
    discriminate.
  - intros s IHs rest IHrest ps o c Hd Hnd Ho Hc k v opt t Hk Hin.
    apply andb_true_iff in Hd as [Hd1 Hd2].
    destruct (read ∅ s o) as [c1|] eqn:H1; simpl in Hc; [|discriminate].
    destruct (reads ∅ rest o) as [c2|] eqn:H2; simpl in Hc; [|discriminate].
    injection Hc as <-.
    apply lookup_union_Some_raw in Hk as [Hk|[_ Hk]]; eauto.
  - discriminate.
Qed.

Lemma describes_covers :
  (forall s ps, describes ps s = true -> covers ps s = true) /\
  (forall ss ps, describes_all ps ss = true -> covers_all ps ss = true).
Proof.
  apply Selection_mutind; simpl; auto.
  - intros a ar ct n p ss IH sk ps.
    destruct (lookup_prop ps (response_key a n)) as [t|]; [|discriminate].
    destruct (if p then array_shape t else object_shape t) as [ps'|];
      [|discriminate].
    intros H. apply andb_true_iff in H as [H _]. auto.
  - intros s IHs rest IHrest ps H. apply andb_true_iff in H as [H1 H2].
    rewrite (IHs _ H1), (IHrest _ H2). reflexivity.
Qed.

(** When the exported type describes the views of the fragment tree, every
    response of the exported type is projected without failure, and the
    view has the exported type again: what a component reads through the
    fragment tree is what the type promises it. *)
Theorem projection_has_declared_shape (a : Artifact) (response : record) :
  describes_view (data_props a) (fragment_tree a) = true ->
  conforms (TObject (data_props a)) (JObj response) = true ->
  exists view,
    project a response = Done view /\
    conforms (TObject (data_props a)) (JObj view) = true.
Proof.
  intros Hd Hc. apply andb_true_iff in Hd as [Hd Hsel].
  destruct (project_total a response (proj2 describes_covers _ _ Hd) Hc)
    as [view Hview].
  exists view. split; [exact Hview|].
  unfold project in Hview. rewrite reads_inlined in Hview.
  fold (fragment_tree a) in Hview.
  pose proof Hsel as Hsel'.
  apply andb_true_iff in Hsel' as [_ Hnd]. apply bool_decide_eq_true_1 in Hnd.
  simpl in *. eapply conforms_view; eauto.
  intros k v opt t. eapply (proj2 view_values); eauto.
Qed.

(** The view of [session_response] through the fragment tree of
    [SessionDetailsQuery] has the type [SessionDetailsQuery$data]. *)
Lemma projection_has_declared_shape_session :
  describes_view (data_props SessionDetailsQuery.artifact)
    (fragment_tree SessionDetailsQuery.artifact) = true /\
  conforms (data SessionDetailsQuery.artifact) (JObj session_response)
    = true /\
  exists view,
    project SessionDetailsQuery.artifact session_response = Done view /\
    conforms (data SessionDetailsQuery.artifact) (JObj view) = true.
Proof.
  split; [vm_compute; reflexivity|]. split; [vm_compute; reflexivity|].
  apply (projection_has_declared_shape SessionDetailsQuery.artifact
           session_response); vm_compute; reflexivity.
Defined.

(** ** Reading what the operation tree has kept *)

Lemma has_scalar_element (k : string) (ss : Selections) :
  has_scalar k ss = true ->
  exists a ar n sk,
    ScalarField a ar n sk ∈ elements ss /\ response_key a n = k.
Proof.
  induction ss as [|s rest IH|v]; simpl; try discriminate.
  intros H.
  assert (has_scalar k rest = true ->
          exists a ar n sk,
            ScalarField a ar n sk ∈ s :: elements rest /\
            response_key a n = k) as Hrest.
  { intros Hr. destruct (IH Hr) as (a & ar & n & sk & Hin & Hk).
    exists a, ar, n, sk. split; [apply list_elem_of_further, Hin|exact Hk]. }
  destruct s as [a ar n sk| | | | |]; auto.
  apply orb_true_iff in H as [H|H]; [|auto].
  exists a, ar, n, sk. split; [apply list_elem_of_here|].
  symmetry. apply String.eqb_eq, H.
Qed.

Lemma find_linked_element (k : string) (p : bool) (ss ss' : Selections) :
  find_linked k p ss = Some ss' ->
  exists a ar ct n sk,
    LinkedField a ar ct n p ss' sk ∈ elements ss /\ response_key a n = k.
Proof.
  induction ss as [|s rest IH|v]; simpl; try discriminate.
  intros H.
  assert (find_linked k p rest = Some ss' ->
          exists a ar ct n sk,
            LinkedField a ar ct n p ss' sk ∈ s :: elements rest /\
            response_key a n = k) as Hrest.
  { intros Hr. destruct (IH Hr) as (a & ar & ct & n & sk & Hin & Hk).
    exists a, ar, ct, n, sk.
    split; [apply list_elem_of_further, Hin|exact Hk]. }
  destruct s as [|a ar ct n q ss0 sk| | | |]; auto.
  destruct (String.eqb k (response_key a n) && Bool.eqb q p) eqn:E; [|auto].
  apply andb_true_iff in E as [Ek Ep].
  apply String.eqb_eq in Ek. apply Bool.eqb_prop in Ep.
  injection H as <-. subst q.
  exists a, ar, ct, n, sk. split; [apply list_elem_of_here|auto].
Qed.

Lemma find_branch_element (t : string) (ss ss' : Selections) :
  find_branch t ss = Some ss' -> InlineFragment ss' t None ∈ elements ss.
Proof.
  induction ss as [|s rest IH|v]; simpl; try discriminate.
  intros H.
  assert (find_branch t rest = Some ss' ->
          InlineFragment ss' t None ∈ s :: elements rest) as Hrest
    by (intros Hr; apply list_elem_of_further, IH, Hr).
  destruct s as [| |ss0 t0 [ak|]| | |]; auto.
  destruct (String.eqb_spec t t0) as [->|]; [|auto].
  injection H as <-. apply list_elem_of_here.
Qed.

Lemma view_in_level_keys :
  (forall s o v k, read ∅ s o = Done v -> is_Some (v !! k) ->
                   k ∈ level_keys s) /\
  (forall ss o v k, reads ∅ ss o = Done v -> is_Some (v !! k) ->
                    k ∈ level_keys_of ss).
Proof.
  assert (forall k : string, ~ is_Some ((∅ : record) !! k)) as Hempty
    by (intros k [x Hx]; rewrite lookup_empty in Hx; discriminate).
  assert (forall (k k' : string) (x : json),
            is_Some (({[ k' := x ]} : record) !! k) -> k ∈ [k']) as Hone.
  { intros k k' x [y Hy]. apply lookup_singleton_Some in Hy as [-> _].
    apply list_elem_of_here. }
  apply Selection_mutind; simpl.
  - intros a ar n sk o v k H Hk.
    destruct (o !! response_key a n); injection H as <-;
      [eauto | destruct (Hempty _ Hk)].
  - intros a ar ct n p ss IH sk o v k H Hk.
    destruct (o !! response_key a n) as [[| | | |items|o']|];
      destruct p; simpl in H; try discriminate;
      try (injection H as <-; first [solve [eauto] | destruct (Hempty _ Hk)]).
    + destruct (read_items (reads ∅ ss) items); simpl in H; [|discriminate].
      injection H as <-. eauto.
    + destruct (reads ∅ ss o'); simpl in H; [|discriminate].
      injection H as <-. eauto.
  - intros ss IH t [k'|] o v k H Hk.
    + destruct (o !! k'); [eauto|]. injection H as <-.
      destruct (Hempty _ Hk).
    + destruct (typename o) as [t'|];
        [destruct (String.eqb t t')|]; eauto;
        injection H as <-; destruct (Hempty _ Hk).
  - intros ak o v k [= <-] Hk. destruct (Hempty _ Hk).
  - intros ar n o v k [= <-] Hk. destruct (Hempty _ Hk).
  - intros x o v k H. rewrite lookup_empty in H. discriminate.
  - intros o v k [= <-] Hk. destruct (Hempty _ Hk).
  - intros s IHs rest IHrest o v k H Hk.
    destruct (read ∅ s o) as [v1|] eqn:H1; simpl in H; [|discriminate].
    destruct (reads ∅ rest o) as [v2|] eqn:H2; simpl in H; [|discriminate].
    injection H as <-. apply lookup_union_is_Some in Hk as [Hk|Hk].
    + apply elem_of_app. left. eauto.
    + apply elem_of_app. right. eauto.
  - intros x o v k H. rewrite lookup_empty in H. discriminate.
Qed.

Lemma element_view (cur : Selections) (o wc : record) (s : Selection) :
  reads ∅ cur o = Done wc -> NoDup (level_keys_of cur) ->
  s ∈ elements cur ->
  NoDup (level_keys s) /\
  (forall k, k ∈ level_keys s -> k ∈ level_keys_of cur) /\
  exists v, read ∅ s o = Done v /\
            forall k, k ∈ level_keys s -> wc !! k = v !! k.
Proof.
  revert wc. induction cur as [|s0 rest IH|x]; simpl; intros wc H Hnd Hin.
  - inversion Hin.
  - destruct (read ∅ s0 o) as [v0|] eqn:H0; simpl in H; [|discriminate].
    destruct (reads ∅ rest o) as [wr|] eqn:Hr; simpl in H; [|discriminate].
    injection H as <-.
    apply NoDup_app in Hnd as (Hnd0 & Hdisj & Hndr).
    apply elem_of_cons in Hin as [->|Hin].
    + split; [exact Hnd0|]. split; [intros k Hk; apply elem_of_app; auto|].
      exists v0. split; [exact H0|]. intros k Hk.
      destruct (v0 !! k) as [y|] eqn:Hy.
      * apply lookup_union_Some_l. exact Hy.
      * apply lookup_union_None. split; [exact Hy|].
        destruct (wr !! k) as [z|] eqn:Hz; [|reflexivity].
        exfalso. apply (Hdisj k Hk).
        apply (proj2 view_in_level_keys rest o wr k Hr). eauto.
    + destruct (IH wr eq_refl Hndr Hin) as (Hnds & Hsub & v & Hv & Hview).
      split; [exact Hnds|].
      split; [intros k Hk; apply elem_of_app; auto|].
      exists v. split; [exact Hv|]. intros k Hk.
      rewrite <- (Hview k Hk). apply lookup_union_r.
      destruct (v0 !! k) as [y|] eqn:Hy; [|reflexivity].
      exfalso. apply (Hdisj k); [|apply Hsub, Hk].
      apply (proj1 view_in_level_keys s0 o v0 k H0). eauto.
  - inversion Hin.
Qed.

Lemma region_view (o w : record) (root cur : Selections) :
  reads ∅ root o = Done w -> NoDup (level_keys_of root) ->
  region o root cur ->
  exists wc, reads ∅ cur o = Done wc /\ NoDup (level_keys_of cur) /\
             forall k, k ∈ level_keys_of cur -> w !! k = wc !! k.
Proof.
  intros Hw Hnd Hreg. induction Hreg as [|cur ss t Hreg IH Hin Ht].
  - exists w. auto.
  - destruct IH as (wc & Hwc & Hndc & Hview).
    destruct (element_view cur o wc _ Hwc Hndc Hin)
      as (Hnds & Hsub & v & Hv & Hel).
    simpl in *. rewrite Ht, String.eqb_refl in Hv.
    exists v. split; [exact Hv|]. split; [exact Hnds|].
    intros k Hk. rewrite (Hview k (Hsub k Hk)). apply Hel, Hk.
Qed.

Lemma field_view (o w : record) (root cur : Selections) (s : Selection) :
  reads ∅ root o = Done w -> NoDup (level_keys_of root) ->
  region o root cur -> s ∈ elements cur ->
  exists v, read ∅ s o = Done v /\
            forall k, k ∈ level_keys s -> w !! k = v !! k.
Proof.
  intros Hw Hnd Hreg Hin.
  destruct (region_view o w root cur Hw Hnd Hreg) as (wc & Hwc & Hndc & Hview).
  destruct (element_view cur o wc s Hwc Hndc Hin) as (_ & Hsub & v & Hv & Hel).
  exists v. split; [exact Hv|]. intros k Hk.
  rewrite (Hview k (Hsub k Hk)). apply Hel, Hk.
Qed.

Lemma scalar_view (o w : record) (root cur : Selections) (k : string) :
  reads ∅ root o = Done w -> NoDup (level_keys_of root) ->
  region o root cur -> has_scalar k cur = true -> w !! k = o !! k.
Proof.
  intros Hw Hnd Hreg Hk.
  destruct (has_scalar_element k cur Hk) as (a & ar & n & sk & Hin & <-).
  destruct (field_view o w root cur _ Hw Hnd Hreg Hin) as (v & Hv & Hview).
  rewrite (Hview (response_key a n)) by apply list_elem_of_here.
  simpl in Hv. destruct (o !! response_key a n) as [x|]; injection Hv as <-.
  - apply lookup_singleton_eq.
  - apply lookup_empty.
Qed.

Lemma items_view (m2 m1 : meaning) (items ws : list json) :
  (forall o w, m2 o = Done w -> m1 w = m1 o) ->
  read_items m2 items = Done ws ->
  read_items m1 ws = read_items m1 items.
Proof.
  intros Hm. revert ws. induction items as [|i items IH]; simpl; intros ws.
  - intros [= <-]. reflexivity.
  - destruct i; try discriminate.
    + destruct (read_items m2 items) as [ws'|]; simpl; [|discriminate].
      intros [= <-]. simpl. rewrite (IH ws' eq_refl). reflexivity.
    + destruct (m2 fields) as [w|] eqn:Hw; simpl; [|discriminate].
      destruct (read_items m2 items) as [ws'|]; simpl; [|discriminate].
      intros [= <-]. simpl. rewrite (Hm _ _ Hw), (IH ws' eq_refl).
      reflexivity.
Qed.

Lemma keeps_sound :
  (forall s tagged cur root o w,
     keeps tagged cur s = true ->
     reads ∅ root o = Done w -> NoDup (level_keys_of root) ->
     region o root cur ->
     (tagged = true -> typename w = typename o) ->
     read ∅ s w = read ∅ s o) /\
  (forall ss tagged cur root o w,
     keeps_all tagged cur ss = true ->
     reads ∅ root o = Done w -> NoDup (level_keys_of root) ->
     region o root cur ->
     (tagged = true -> typename w = typename o) ->
     reads ∅ ss w = reads ∅ ss o).
Proof.
  apply Selection_mutind.
  - intros a ar n sk tagged cur root o w Hk Hw Hnd Hreg _. simpl in *.
    rewrite (scalar_view o w root cur _ Hw Hnd Hreg Hk). reflexivity.
  - intros a ar ct n p ss IH sk tagged cur root o w Hk Hw Hnd Hreg _.
    simpl in Hk.
    destruct (find_linked (response_key a n) p cur) as [ss2|] eqn:Hf;
      [|discriminate].
    apply andb_true_iff in Hk as [Hnd2 Hk].
    apply bool_decide_eq_true_1 in Hnd2.
    destruct (find_linked_element _ _ _ _ Hf)
      as (a2 & ar2 & ct2 & n2 & sk2 & Hin & Hkey).
    destruct (field_view o w root cur _ Hw Hnd Hreg Hin) as (v & Hv & Hview).
    specialize (Hview (response_key a n)).
    simpl in Hview, Hv. rewrite Hkey in Hview, Hv.
    specialize (Hview (list_elem_of_here _ _)).
    assert (forall o' w', reads ∅ ss2 o' = Done w' ->
                          reads ∅ ss w' = reads ∅ ss o') as Hlevel.
    { intros o' w' Hw'.
      apply (IH (has_scalar "__typename" ss2) ss2 ss2 o' w' Hk Hw' Hnd2
               (region_root _ _)).
      intros Ht. unfold typename.
      rewrite (scalar_view o' w' ss2 ss2 _ Hw' Hnd2 (region_root _ _) Ht).
      reflexivity. }
    simpl.
    destruct (o !! response_key a n) as [[| | | |items|o']|];
      destruct p; simpl in Hv; try discriminate;
      try (injection Hv as <-;
           first [rewrite lookup_singleton_eq in Hview
                 |rewrite lookup_empty in Hview];
           rewrite Hview; reflexivity).
    + destruct (read_items (reads ∅ ss2) items) as [ws|] eqn:Hws;
        simpl in Hv; [|discriminate].
      injection Hv as <-. rewrite lookup_singleton_eq in Hview.
      rewrite Hview. rewrite (items_view _ _ _ _ Hlevel Hws). reflexivity.
    + destruct (reads ∅ ss2 o') as [w'|] eqn:Hw'; simpl in Hv;
        [|discriminate].
      injection Hv as <-. rewrite lookup_singleton_eq in Hview.
      rewrite Hview. rewrite (Hlevel _ _ Hw'). reflexivity.
  - intros ss IH t [ak|] tagged cur root o w Hk Hw Hnd Hreg Htag;
      simpl in Hk; [discriminate|].
    apply andb_true_iff in Hk as [-> Hk].
    destruct (find_branch t cur) as [ss2|] eqn:Hf; [|discriminate].
    apply find_branch_element in Hf. simpl. rewrite (Htag eq_refl).
    destruct (typename o) as [t'|] eqn:Ht; [|reflexivity].
    destruct (String.eqb_spec t t') as [<-|]; [|reflexivity].
    apply (IH true ss2 root o w Hk Hw Hnd);
      [|intros _; rewrite Ht; apply Htag; reflexivity].
    apply (region_branch o root cur ss2 t Hreg Hf Ht).
  - reflexivity.
  - reflexivity.
  - discriminate.
  - reflexivity.
  - intros s IHs rest IHrest tagged cur root o w Hk Hw Hnd Hreg Htag.
    simpl in Hk. apply andb_true_iff in Hk as [Hs Hrest]. simpl.
    rewrite (IHs tagged cur root o w Hs Hw Hnd Hreg Htag).
    rewrite (IHrest tagged cur root o w Hrest Hw Hnd Hreg Htag).
    reflexivity.
  - discriminate.
Qed.

(** Reading the fragment tree from what the operation tree has kept of a
    response gives what reading it from the response itself gives, a
    failure included: the operation tree keeps every field the fragment
    tree reads, under the same key, and the type tag wherever the fragment
    tree branches on it. *)
Theorem stored_response_reads_alike (a : Artifact) (response stored : record) :
  retains (operation_tree a) (fragment_tree a) = true ->
  project_operation a response = Done stored ->
  project a stored = project a response.
Proof.
  unfold project, project_operation. rewrite !reads_inlined.
  fold (fragment_tree a) (operation_tree a).
  intros Hr Hs. apply andb_true_iff in Hr as [Hnd Hk].
  apply bool_decide_eq_true_1 in Hnd.
  apply (proj2 keeps_sound _ _ _ _ _ _ Hk Hs Hnd (region_root _ _)).
  intros Ht. unfold typename.
  rewrite (scalar_view _ _ _ _ _ Hs Hnd (region_root _ _) Ht). reflexivity.
Qed.

(** Both bindings keep what their fragment trees read; the fragment tree of
    [SessionDetailsQuery] reads [session_response] and what the operation
    tree keeps of it alike. *)
Lemma stored_response_reads_alike_bindings :
  Forall (fun a => retains (operation_tree a) (fragment_tree a) = true)
    bindings /\
  exists stored,
    project_operation SessionDetailsQuery.artifact session_response
      = Done stored /\
    project SessionDetailsQuery.artifact stored =
    project SessionDetailsQuery.artifact session_response.
Proof.
  split; [each_binding; vm_compute; reflexivity|].
  destruct (project_operation SessionDetailsQuery.artifact session_response)
    as [stored|] eqn:Hs; [|vm_compute in Hs; discriminate Hs].
  exists stored. split; [reflexivity|].
  apply stored_response_reads_alike; [vm_compute; reflexivity | exact Hs].
Defined.
